(** * Replay event aggregation: [useReplayEvent]

    A shallow embedding of
    [static/app/views/replays/utils/useReplayEvent.tsx].

    - JavaScript strings are sequences of code units; the embedding uses
      [string], i.e. code units below 256.
    - Objects that the code spreads ([{...replayEvents[0], ...}]) are
      finite maps from attribute names to values.
    - A promise is the list of requests it issues, the instant at which
      it settles, and its outcome; [await] is the bind of that monad. *)

From stdpp Require Import base option list strings gmap.
From Stdlib Require Import Ascii ZArith Lia.

Open Scope string_scope.
Open Scope nat_scope.
Open Scope list_scope.

(** ** Exceptions and fallible computations *)

Inductive Error :=
| RequestError (detail : string)   (* a rejected [api.requestPromise] *)
| SyntaxError (detail : string)    (* thrown by [JSON.parse] *)
| TypeError (detail : string).     (* property read on [undefined] *)

Inductive result (A : Type) :=
| Ok (value : A)
| Err (error : Error).
Arguments Ok {A} value.
Arguments Err {A} error.

#[global] Instance result_ret : MRet result := fun A a => Ok a.
#[global] Instance result_bind : MBind result := fun A B k r =>
  match r with
  | Ok a => k a
  | Err e => Err e
  end.
#[global] Instance result_fmap : FMap result := fun A B f r =>
  match r with
  | Ok a => Ok (f a)
  | Err e => Err e
  end.

Definition is_err {A} (r : result A) : bool :=
  match r with
  | Ok _ => false
  | Err _ => true
  end.

Definition error_of {A} (r : result A) : option Error :=
  match r with
  | Ok _ => None
  | Err e => Some e
  end.

(** ** Strings *)

(** [s.split(sep)] for a one-character separator. *)
Fixpoint split (sep : ascii) (s : string) : list string :=
  match s with
  | EmptyString => [EmptyString]
  | String c rest =>
      if decide (c = sep) then EmptyString :: split sep rest
      else match split sep rest with
           | piece :: pieces => String c piece :: pieces
           | [] => [String c EmptyString]
           end
  end.

(** A template-literal hole [${x}]: [undefined] prints as "undefined". *)
Definition interpolate (x : option string) : string :=
  match x with
  | Some s => s
  | None => "undefined"
  end.

Fixpoint contains (c : ascii) (s : string) : bool :=
  match s with
  | EmptyString => false
  | String d rest => bool_decide (c = d) || contains c rest
  end.

Definition is_digit (c : ascii) : bool :=
  (nat_of_ascii "0" <=? nat_of_ascii c) && (nat_of_ascii c <=? nat_of_ascii "9").

Fixpoint all_digits (s : string) : bool :=
  match s with
  | EmptyString => true
  | String c rest => is_digit c && all_digits rest
  end.

(** ** Regular expressions without repetition operators

    A pattern such as [/rrweb-[0-9]{13}.json/] is a sequence of atoms, each
    consuming exactly one code unit. *)

Inductive Atom :=
| Lit (c : ascii)            (* a literal character *)
| Range (lo hi : ascii)      (* a class [lo-hi] *)
| Dot.                       (* [.]: anything but a line terminator *)

Definition is_line_terminator (c : ascii) : bool :=
  bool_decide (c = "010"%char) || bool_decide (c = "013"%char).

Definition atom_matches (a : Atom) (c : ascii) : bool :=
  match a with
  | Lit d => bool_decide (c = d)
  | Range lo hi =>
      (nat_of_ascii lo <=? nat_of_ascii c)%nat && (nat_of_ascii c <=? nat_of_ascii hi)%nat
  | Dot => negb (is_line_terminator c)
  end.

(** Does the pattern match at the very start of [s]? *)
Fixpoint match_here (pattern : list Atom) (s : string) : bool :=
  match pattern with
  | [] => true
  | a :: pattern' =>
      match s with
      | EmptyString => false
      | String c rest => atom_matches a c && match_here pattern' rest
      end
  end.

(** [RegExp.prototype.test] for a pattern without anchors: the pattern
    may match at any offset. *)
Fixpoint test (pattern : list Atom) (s : string) : bool :=
  match_here pattern s ||
  match s with
  | EmptyString => false
  | String _ rest => test pattern rest
  end.

Fixpoint literal (s : string) : list Atom :=
  match s with
  | EmptyString => []
  | String c rest => Lit c :: literal rest
  end.

(** [const IS_RRWEB_ATTACHMENT_FILENAME = /rrweb-[0-9]{13}.json/;] *)
Definition IS_RRWEB_ATTACHMENT_FILENAME : list Atom :=
  literal "rrweb-" ++ replicate 13 (Range "0" "9") ++ [Dot] ++ literal "json".

(** ** Data model ([sentry/types], [sentry/types/event]) *)

(** The discriminant of an entry. *)
Inductive EntryType :=
| BREADCRUMBS | DEBUGMETA | EXCEPTION | MESSAGE | REQUEST
| SPANS | STACKTRACE | TEMPLATE | THREADS.

#[global] Instance EntryType_eq_dec : EqDecision EntryType.
Proof. solve_decision. Defined.

(** A span record. Timestamps are copied by the aggregator and never
    computed on. *)
Record Span := mkSpan {
  span_id : string;
  timestamp : Z;
}.

(** Modelled from the spec: an entry is typed by a discriminant, and a
    spans entry holds a sequence of span records (the declaration of
    [Entry] is not part of the sources at hand; it types [data] as
    [any]). The payload of an entry of another kind is never read here. *)
Record Entry := mkEntry {
  type : EntryType;
  data : list Span;
}.

(** Values of event attributes. *)
Inductive Val :=
| VUndefined
| VNull
| VNumber (n : Z)
| VString (s : string)
| VEntries (entries : list Entry)
| VOpaque (json : string).   (* any other structured value *)

(** An event is an object: a finite map from attribute names to values. *)
Abbreviation Event := (gmap string Val).

Record IssueAttachment := mkAttachment {
  attachment_id : string;
  name : string;
}.

(** One record of a parsed rrweb attachment. *)
Record eventWithTime := mkRRWeb {
  rrweb_timestamp : Z;
  rrweb_payload : string;
}.

(** A row of the [eventsv2] answer. *)
Record EventData := mkRow {
  row_id : string;
  row_project : string;
}.

(** The saved query handed to [EventView.fromSavedQuery]. *)
Record SavedQuery := mkSavedQuery {
  sq_id : string;
  sq_name : string;
  sq_version : Z;
  sq_fields : list string;
  sq_orderby : string;
  sq_projects : list Z;
  sq_range : string;
  sq_query : string;
}.

(** ** The published state of the hook *)

Record State := mkState {
  breadcrumbEntry : option Entry;
  event : option Event;
  fetchError : option Error;
  fetching : bool;
  mergedReplayEvent : option Event;
  replayEvents : option (list Event);
  rrwebEvents : option (list eventWithTime);
}.

Record Options := mkOptions {
  eventSlug : string;
  location : string;
  orgId : string;
}.

(** ** Promises

    [issued] lists the requests a computation sends, in the order in
    which it sends them as long as it runs one thing after another;
    the branches of a [Promise.all] run interleaved and are listed
    branch by branch, so that across branches the list tells which
    requests are sent, and how often, but not in which order.
    [settledAt] is the instant at which the computation settles, counted
    from its start; [outcome] is its value or its rejection. *)

Record Promise (A : Type) := mkPromise {
  issued : list string;
  settledAt : nat;
  outcome : result A;
}.
Arguments mkPromise {A} issued settledAt outcome.
Arguments issued {A} p.
Arguments settledAt {A} p.
Arguments outcome {A} p.

(** A value that is available at once: [Promise.resolve(a)], or the
    result of synchronous code ([Err]: it threw). *)
Definition settled {A} (r : result A) : Promise A := mkPromise [] 0 r.

#[global] Instance Promise_ret : MRet Promise := fun A a => settled (Ok a).

(** [const a = await p; k a]: the continuation runs once [p] has
    fulfilled, and not at all when [p] rejects. *)
#[global] Instance Promise_bind : MBind Promise := fun A B k p =>
  match outcome p with
  | Ok a =>
      let q := k a in
      mkPromise (issued p ++ issued q) (settledAt p + settledAt q) (outcome q)
  | Err e => mkPromise (issued p) (settledAt p) (Err e)
  end.

(** The rejection that settles first among the given outcomes; of two
    that settle at the same instant, the one listed first. *)
Fixpoint earliest_rejection (ps : list (nat * option Error)) : option (nat * Error) :=
  match ps with
  | [] => None
  | (t, o) :: ps' =>
      match o, earliest_rejection ps' with
      | Some e, Some (t', e') => if (t <=? t')%nat then Some (t, e) else Some (t', e')
      | Some e, None => Some (t, e)
      | None, later => later
      end
  end.

Definition settlement {A} (p : Promise A) : nat * option Error :=
  (settledAt p, error_of (outcome p)).

(** The values of promises that all fulfilled. *)
Fixpoint values {A} (ps : list (Promise A)) : result (list A) :=
  match ps with
  | [] => Ok []
  | p :: ps' =>
      match outcome p, values ps' with
      | Ok a, Ok l => Ok (a :: l)
      | Err e, _ => Err e
      | _, Err e => Err e
      end
  end.

(** [Promise.all(ps)]: every promise has been started; the result
    rejects as soon as one of them rejects, with that rejection, and
    otherwise fulfils when the last one has. The requests of the
    branches are listed branch by branch. *)
Definition Promise_all {A} (ps : list (Promise A)) : Promise (list A) :=
  let requests := concat (map issued ps) in
  match earliest_rejection (map settlement ps) with
  | Some (t, e) => mkPromise requests t (Err e)
  | None => mkPromise requests (max_list (map settledAt ps)) (values ps)
  end.

(** [Promise.all([p1, p2, p3])] for promises of three different types.
    The three computations are started one after the other and then
    run interleaved; [issued] lists their requests branch by branch. *)
Definition Promise_all3 {A B C} (p1 : Promise A) (p2 : Promise B) (p3 : Promise C)
  : Promise (A * B * C) :=
  let requests := issued p1 ++ issued p2 ++ issued p3 in
  match earliest_rejection [settlement p1; settlement p2; settlement p3] with
  | Some (t, e) => mkPromise requests t (Err e)
  | None =>
      mkPromise requests (settledAt p1 `max` (settledAt p2 `max` settledAt p3))
        (a ← outcome p1; b ← outcome p2; c ← outcome p3; Ok (a, b, c))
  end.

(** ** The collaborators of the hook

    [api.requestPromise] answers a request after some latency, with a
    body or a rejection; it is seen here at the type each call site
    casts its answer to. [JSON.parse(response).events], [EventView],
    [generateEventSlug] and [mergeBreadcrumbsEntries] are defined outside
    of the file under study. *)

Record Response (A : Type) := mkResponse {
  latency : nat;
  body : result A;
}.
Arguments mkResponse {A} latency body.
Arguments latency {A} r.
Arguments body {A} r.

Record Env := mkEnv {
  requestEvent : string → Response Event;
  requestAttachments : string → Response (list IssueAttachment);
  requestDownload : string → Response string;
  requestEventsV2 : string → string → Response (list EventData);
  JSON_parse_events : string → result (list eventWithTime);
  getEventsAPIPayload : SavedQuery → list (string * list (option string)) → string → string;
  generateEventSlug : EventData → string;
  mergeBreadcrumbsEntries : list Event → result Entry;
}.

(** One call of [api.requestPromise(url)]. *)
Definition requestPromise {A} (url : string) (r : Response A) : Promise A :=
  mkPromise [url] (latency r) (body r).

(** [function isReplayEventEntity(entry: Entry)] *)
Definition isReplayEventEntity (entry : Entry) : bool :=
  match type entry with
  | SPANS => true
  | _ => false
  end.

(** [function isRRWebEventAttachment(attachment: IssueAttachment)] *)
Definition isRRWebEventAttachment (attachment : IssueAttachment) : bool :=
  test IS_RRWEB_ATTACHMENT_FILENAME (name attachment).

(** [const [projectId, eventId] = eventSlug.split(':');] *)
Definition parseSlug (eventSlug : string) : option string * option string :=
  let parts := split ":" eventSlug in
  (parts !! 0%nat, parts !! 1%nat).

(** [replayEvent.entries.find(isReplayEventEntity).data]: reading [data]
    from the [undefined] that [find] returns when nothing matches throws,
    as does calling [find] on something that is not an array. *)
Definition spansOf (replayEvent : Event) : result (list Span) :=
  match replayEvent !! "entries" with
  | Some (VEntries entries) =>
      match List.find isReplayEventEntity entries with
      | Some entry => Ok (data entry)
      | None => Err (TypeError "Cannot read properties of undefined (reading 'data')")
      end
  | _ => Err (TypeError "replayEvent.entries.find is not a function")
  end.

(** [l.flatMap(f)] for a callback that returns an array or throws. *)
Fixpoint flatMap {A B} (f : A → result (list B)) (l : list A) : result (list B) :=
  match l with
  | [] => Ok []
  | x :: l' => ys ← f x; rest ← flatMap f l'; Ok (ys ++ rest)
  end.

(** [l[i]] for an integer index: [undefined] out of range. *)
Definition at_index {A} (l : list A) (i : Z) : option A :=
  if (i <? 0)%Z then None else l !! Z.to_nat i.

(** [span?.timestamp] *)
Definition optional_timestamp (span : option Span) : Val :=
  match span with
  | Some s => VNumber (timestamp s)
  | None => VUndefined
  end.

(** [{...o}] in an object literal: the attributes of [o], and none when
    [o] is [undefined] (CopyDataProperties returns its target unchanged
    for an [undefined] or [null] source; it does not throw). *)
Definition spread (o : option Event) : Event := default ∅ o.

(** The object literal bound to [mergedReplayEvent]. *)
Definition mergedReplayEventOf (replayEvents : list Event) (spans : list Span) : Event :=
  <["endTimestamp" := optional_timestamp (at_index spans (Z.of_nat (length spans) - 1))]>
    (<["entries" := VEntries [mkEntry SPANS spans]]>
      (<["breakdowns" := VNull]>
        (spread (replayEvents !! 0%nat)))).

(** The merge step of [loadEvents]: the definitions of [spans] and of
    [mergedReplayEvent]. *)
Definition mergeReplayEvents (replayEvents : list Event) : result Event :=
  spans ← flatMap spansOf replayEvents;
  Ok (mergedReplayEventOf replayEvents spans).

Definition projectId (options : Options) : option string := (parseSlug (eventSlug options)).1.
Definition eventId (options : Options) : option string := (parseSlug (eventSlug options)).2.

(** The state handed to [useState], and again to [setState] when a load
    cycle starts. *)
Definition initialState : State := mkState None None None true None None None.

(** The state published by the [catch] block. *)
Definition errorState (error : Error) : State :=
  mkState None None (Some error) false None None None.

(** The [setState] calls of one run of [loadEvents], with the instant of
    each, and the requests the run sent. *)
Record Run := mkRun {
  sent : list string;
  setState : list (nat * State);
}.

Section hook.
Context (env : Env) (options : Options).

Definition eventUrl (slug : string) : string :=
  "/organizations/" +:+ orgId options +:+ "/events/" +:+ slug +:+ "/".

Definition attachmentsUrl : string :=
  "/projects/" +:+ orgId options +:+ "/" +:+ interpolate (projectId options)
    +:+ "/events/" +:+ interpolate (eventId options) +:+ "/attachments/".

Definition downloadUrl (attachment : IssueAttachment) : string :=
  "/api/0/projects/" +:+ orgId options +:+ "/" +:+ interpolate (projectId options)
    +:+ "/events/" +:+ interpolate (eventId options) +:+ "/attachments/"
    +:+ attachment_id attachment +:+ "/?download".

Definition eventsV2Url : string :=
  "/organizations/" +:+ orgId options +:+ "/eventsv2/".

(** [function fetchEvent()] *)
Definition fetchEvent : Promise Event :=
  requestPromise (eventUrl (eventSlug options))
    (requestEvent env (eventUrl (eventSlug options))).

(** The callback of [rrwebAttachmentIds.map] in [fetchRRWebEvents]. *)
Definition downloadAttachment (attachment : IssueAttachment) : Promise (list eventWithTime) :=
  response ← requestPromise (downloadUrl attachment)
               (requestDownload env (downloadUrl attachment));
  settled (JSON_parse_events env response).

(** [async function fetchRRWebEvents()] *)
Definition fetchRRWebEvents : Promise (list eventWithTime) :=
  attachmentIds ← requestPromise attachmentsUrl (requestAttachments env attachmentsUrl);
  let rrwebAttachmentIds := List.filter isRRWebEventAttachment attachmentIds in
  attachments ← Promise_all (map downloadAttachment rrwebAttachmentIds);
  mret (concat attachments).

Definition replayEventsView : SavedQuery :=
  mkSavedQuery "" "" 2 ["timestamp"; "replayId"] "timestamp" [] "14d"
    "transaction:sentry-replay-event".

(** [async function fetchReplayEvents()]; the rows are
    [replayEventList.data]. *)
Definition fetchReplayEvents : Promise (list Event) :=
  let replayEventsQuery :=
    getEventsAPIPayload env replayEventsView [("replayId", [eventId options])]
      (location options) in
  replayEventList ← requestPromise eventsV2Url
                      (requestEventsV2 env eventsV2Url replayEventsQuery);
  Promise_all
    (map (λ row, requestPromise (eventUrl (generateEventSlug env row))
                   (requestEvent env (eventUrl (generateEventSlug env row))))
         replayEventList).

(** The [try] block of [loadEvents], up to the state it publishes.
    [replayEvents || []] is [replayEvents], an array being truthy; the
    state literal overwrites every attribute of [...state]. *)
Definition tryBlock (state : State) : Promise State :=
  '(event, rrwebEvents, replayEvents) ←
      Promise_all3 fetchEvent fetchRRWebEvents fetchReplayEvents;
  breadcrumbEntry ← settled (mergeBreadcrumbsEntries env replayEvents);
  mergedReplayEvent ← settled (mergeReplayEvents replayEvents);
  mret (mkState (Some breadcrumbEntry) (Some event) None false
          (Some mergedReplayEvent) (Some replayEvents) (Some rrwebEvents)).

(** The state with which a load cycle ends: that of the [try] block,
    or that of the [catch] block. *)
Definition published (state : State) : State :=
  match outcome (tryBlock state) with
  | Ok s => s
  | Err error => errorState error
  end.

(** [async function loadEvents()] *)
Definition loadEvents (state : State) : Run :=
  mkRun (issued (tryBlock state))
    [(0%nat, initialState); (settledAt (tryBlock state), published state)].
End hook.

(** The payload bound to [replayEventsQuery] in [fetchReplayEvents], and
    the request made for one row of the index. *)
Definition replayEventsQuery (env : Env) (options : Options) : string :=
  getEventsAPIPayload env replayEventsView [("replayId", [eventId options])]
    (location options).

Definition relatedEventUrl (env : Env) (options : Options) (row : EventData) : string :=
  eventUrl options (generateEventSlug env row).

(** ** The hook over time

    [useEffect(() => void loadEvents(), [orgId, eventSlug])] runs
    [loadEvents] after the first render and after each render in which
    [orgId] or [eventSlug] differs from the previous render; the effect
    returns no cleanup. The component state is the argument of the
    latest [setState] call. *)

Definition deps (options : Options) : string * string :=
  (orgId options, eventSlug options).

(** The state at instant [now]: of the calls made so far, the latest;
    of two made at the same instant, the one made by the later run. *)
Definition stateAt (calls : list (nat * State)) (now : nat) : State :=
  (fold_left
     (λ (current : nat * State) (call : nat * State),
        if (call.1 <=? now)%nat && (current.1 <=? call.1)%nat then call else current)
     calls (0%nat, initialState)).2.

Definition delay (start : nat) (call : nat * State) : nat * State :=
  (start + call.1, call.2).

(** The [setState] calls made by a sequence of renders, each given by
    its instant and the options it passes to the hook. *)
Fixpoint runEffects (env : Env) (previous : option (string * string))
    (calls : list (nat * State)) (renders : list (nat * Options)) : list (nat * State) :=
  match renders with
  | [] => calls
  | (start, options) :: renders' =>
      if decide (previous = Some (deps options)) then runEffects env previous calls renders'
      else
        let run := loadEvents env options (stateAt calls start) in
        runEffects env (Some (deps options))
          (calls ++ map (delay start) (setState run)) renders'
  end.

(** [function useReplayEvent({eventSlug, location, orgId})]: the state of
    the component at instant [now], once the effects and the [setState]
    calls of that instant have run; this is what the hook returns at the
    render these calls trigger. (The render that passes changed options
    returns the state held before its own effect has run.) *)
Definition useReplayEvent (env : Env) (renders : list (nat * Options)) (now : nat) : State :=
  stateAt (runEffects env None [] renders) now.

(** ** A sample deployment

    Organisation [acme] holds the replay [123:abc]; two related events
    [A] and [B] are indexed for it. *)

Module Sample.
Definition s1 : Span := mkSpan "s1" 1670000000100.
Definition s2 : Span := mkSpan "s2" 1670000000200.
Definition s3 : Span := mkSpan "s3" 1670000000300.
Definition s4 : Span := mkSpan "s4" 1670000000400.

Definition root : Event :=
  <["id" := VString "abc"]> (<["entries" := VEntries []]> ∅).

(** [A] carries two spans entries. *)
Definition A : Event :=
  <["id" := VString "a"]>
    (<["title" := VString "sentry-replay-event"]>
      (<["breakdowns" := VOpaque "{span_ops: {}}"]>
        (<["endTimestamp" := VNumber 1670000000250]>
          (<["entries" := VEntries [mkEntry BREADCRUMBS []; mkEntry SPANS [s1; s2];
                                   mkEntry SPANS [s4]]]> ∅)))).

Definition B : Event :=
  <["id" := VString "b"]> (<["entries" := VEntries [mkEntry SPANS [s3]]]> ∅).

(** An event without a spans entry. *)
Definition C : Event :=
  <["id" := VString "c"]> (<["entries" := VEntries [mkEntry BREADCRUMBS []]]> ∅).

Definition options : Options := mkOptions "123:abc" "?statsPeriod=14d" "acme".

Definition attachments : list IssueAttachment :=
  [mkAttachment "1" "rrweb-1670000000001.json"; mkAttachment "2" "other.json"].

Definition notFound {T} : Response T := mkResponse 1 (Err (RequestError "404")).

(** The deployment, given the answer of the attachment list, the rows
    of the index, and the latency of the root event of [123:abc]. *)
Definition env (attachmentList : Response (list IssueAttachment))
    (rows : list EventData) (rootLatency : nat) : Env :=
  mkEnv
    (λ url,
       if String.eqb url "/organizations/acme/events/123:abc/" then mkResponse rootLatency (Ok root)
       else if String.eqb url "/organizations/acme/events/123:xyz/" then mkResponse 1 (Ok B)
       else if String.eqb url "/organizations/acme/events/abc/" then mkResponse 1 (Ok root)
       else if String.eqb url "/organizations/acme/events/web:a/" then mkResponse 2 (Ok A)
       else if String.eqb url "/organizations/acme/events/web:b/" then mkResponse 1 (Ok B)
       else if String.eqb url "/organizations/acme/events/web:c/" then mkResponse 1 (Ok C)
       else notFound)
    (λ _, attachmentList)
    (λ _, mkResponse 2 (Ok "{events: [..]}"))
    (λ _ _, mkResponse 1 (Ok rows))
    (λ _, Ok [mkRRWeb 1670000000001 "snapshot"])
    (λ _ _ location, location)
    (λ row, row_project row +:+ ":" +:+ row_id row)
    (λ _, Ok (mkEntry BREADCRUMBS [])).

Definition rowsAB : list EventData := [mkRow "a" "web"; mkRow "b" "web"].
Definition healthy : Env := env (mkResponse 1 (Ok attachments)) rowsAB 3.

(** The attachment list cannot be fetched. *)
Definition noAttachmentList : Env :=
  env (mkResponse 2 (Err (RequestError "500"))) rowsAB 3.

(** The index lists [A] and [C]; [C] has no entry tagged as spans. *)
Definition spanless : Env :=
  env (mkResponse 1 (Ok attachments)) [mkRow "a" "web"; mkRow "c" "web"] 3.

(** The index lists no related event. *)
Definition unrelated : Env := env (mkResponse 1 (Ok attachments)) [] 3.

(** The root event of [123:abc] takes long to arrive. *)
Definition slowRoot : Env := env (mkResponse 1 (Ok attachments)) rowsAB 10.

(** The replay the user moves on to. *)
Definition nextOptions : Options := mkOptions "123:xyz" "?statsPeriod=14d" "acme".

(** A slug without a colon. *)
Definition malformedOptions : Options := mkOptions "abc" "?statsPeriod=14d" "acme".

(** Attachments whose names only resemble the naming convention. *)
Definition strayAttachments : list IssueAttachment :=
  [mkAttachment "7" "rrweb-1670000000001xjson";
   mkAttachment "8" "nightly-rrweb-1670000000001.json.bak";
   mkAttachment "9" "other.json"].
Definition stray : Env := env (mkResponse 1 (Ok strayAttachments)) rowsAB 3.

(** Two recordings around an unrelated attachment. *)
Definition twoRecordings : list IssueAttachment :=
  [mkAttachment "1" "rrweb-1670000000001.json"; mkAttachment "2" "other.json";
   mkAttachment "3" "rrweb-1670000000002.json"].
Definition recorded : Env :=
  mkEnv (requestEvent (env notFound rowsAB 3))
    (λ _, mkResponse 1 (Ok twoRecordings))
    (λ url, mkResponse 2 (Ok url))
    (requestEventsV2 (env notFound rowsAB 3))
    (λ response, Ok [mkRRWeb 1670000000001 response])
    (getEventsAPIPayload (env notFound rowsAB 3))
    (generateEventSlug (env notFound rowsAB 3))
    (mergeBreadcrumbsEntries (env notFound rowsAB 3)).

(** The attachments hold no JSON document. *)
Definition corrupt : Env :=
  mkEnv (requestEvent healthy) (requestAttachments healthy) (requestDownload healthy)
    (requestEventsV2 healthy) (λ _, Err (SyntaxError "Unexpected token < in JSON"))
    (getEventsAPIPayload healthy) (generateEventSlug healthy)
    (mergeBreadcrumbsEntries healthy).

(** The breadcrumb merge throws. *)
Definition crumbFault : Env :=
  mkEnv (requestEvent healthy) (requestAttachments healthy) (requestDownload healthy)
    (requestEventsV2 healthy) (JSON_parse_events healthy)
    (getEventsAPIPayload healthy) (generateEventSlug healthy)
    (λ _, Err (TypeError "Cannot read properties of undefined (reading 'values')")).

(** The index lists an event that can no longer be read. *)
Definition missingRelated : Env :=
  env (mkResponse 1 (Ok attachments)) [mkRow "a" "web"; mkRow "z" "web"] 3.

(** The index cannot be queried. *)
Definition noIndex : Env :=
  mkEnv (requestEvent healthy) (requestAttachments healthy) (requestDownload healthy)
    (λ _ _, mkResponse 4 (Err (RequestError "503")))
    (JSON_parse_events healthy)
    (getEventsAPIPayload healthy) (generateEventSlug healthy)
    (mergeBreadcrumbsEntries healthy).

(** The attachment list names the same recording twice. *)
Definition repeatedRecordings : list IssueAttachment :=
  [mkAttachment "1" "rrweb-1670000000001.json"; mkAttachment "2" "other.json";
   mkAttachment "1" "rrweb-1670000000001.json"].
Definition repeated : Env := env (mkResponse 1 (Ok repeatedRecordings)) rowsAB 3.

(** The same replay, seen from another page of the application. *)
Definition sameReplayElsewhere : Options := mkOptions "123:abc" "?statsPeriod=24h" "acme".
End Sample.

(** * Properties *)

(** ** Auxiliary facts: the merge step *)

Lemma flatMap_app {A B} (f : A → result (list B)) (l1 l2 : list A) (ys1 ys2 : list B) :
  flatMap f l1 = Ok ys1 → flatMap f l2 = Ok ys2 → flatMap f (l1 ++ l2) = Ok (ys1 ++ ys2).
Proof.
  revert ys1. induction l1 as [|x l1 IH]; intros ys1 H1 H2; simpl in *.
  - by inversion H1.
  - destruct (f x) as [ys|e]; simpl in *; [|done].
    destruct (flatMap f l1) as [rest|e]; simpl in *; [|done].
    inversion H1; subst. rewrite (IH rest eq_refl H2). simpl. by rewrite app_assoc.
Qed.

Lemma find_first_match {A} (p : A → bool) (pre : list A) (x : A) (later : list A) :
  Forall (λ y, p y = false) pre → p x = true → List.find p (pre ++ x :: later) = Some x.
Proof.
  intros Hpre Hx. induction Hpre as [|y pre Hy _ IH]; simpl.
  - by rewrite Hx.
  - by rewrite Hy.
Qed.

Lemma spansOf_first (e : Event) (pre : list Entry) (first : Entry) (later : list Entry) :
  e !! "entries" = Some (VEntries (pre ++ first :: later)) →
  Forall (λ y, isReplayEventEntity y = false) pre →
  isReplayEventEntity first = true →
  spansOf e = Ok (data first).
Proof.
  intros He Hpre Hfirst. unfold spansOf. rewrite He.
  by rewrite (find_first_match _ _ _ _ Hpre Hfirst).
Qed.

Lemma spansOf_TypeError (e : Event) (error : Error) :
  spansOf e = Err error → ∃ detail, error = TypeError detail.
Proof.
  unfold spansOf. intros H.
  destruct (e !! "entries") as [[| | | |entries|]|]; try (inversion H; eauto; fail).
  destruct (List.find isReplayEventEntity entries); inversion H; eauto.
Qed.

Lemma flatMap_spansOf_TypeError (l : list Event) (error : Error) :
  flatMap spansOf l = Err error → ∃ detail, error = TypeError detail.
Proof.
  induction l as [|e l IH]; simpl; [done|].
  destruct (spansOf e) as [ys|err] eqn:He; simpl.
  - destruct (flatMap spansOf l) as [rest|err]; simpl; [done|].
    intros H. inversion H; subst. by apply IH.
  - intros H. inversion H; subst. by apply (spansOf_TypeError e).
Qed.

Lemma flatMap_Err_elem {A B} (f : A → result (list B)) (l : list A) (x : A) :
  x ∈ l → is_err (f x) = true → is_err (flatMap f l) = true.
Proof.
  induction 1 as [x l|x y l _ IH]; intros Hx; simpl.
  - by destruct (f x).
  - destruct (f y); simpl; [|done].
    specialize (IH Hx). by destruct (flatMap f l).
Qed.

Lemma at_index_last {A} (l : list A) :
  at_index l (Z.of_nat (length l) - 1) = last l.
Proof.
  unfold at_index. destruct l as [|x l]; [done|].
  replace (Z.of_nat (length (x :: l)) - 1)%Z with (Z.of_nat (length l))
    by (simpl length; lia).
  destruct (Z.ltb_spec (Z.of_nat (length l)) 0) as [Hneg|_]; [lia|].
  rewrite Nat2Z.id, last_lookup. reflexivity.
Qed.

Lemma mergedReplayEventOf_other (replayEvents : list Event) (spans : list Span) (k : string) :
  k ≠ "entries" → k ≠ "breakdowns" → k ≠ "endTimestamp" →
  mergedReplayEventOf replayEvents spans !! k = spread (replayEvents !! 0%nat) !! k.
Proof.
  intros H1 H2 H3. unfold mergedReplayEventOf.
  by rewrite !lookup_insert_ne.
Qed.

Lemma mergedReplayEventOf_entries (replayEvents : list Event) (spans : list Span) :
  mergedReplayEventOf replayEvents spans !! "entries" = Some (VEntries [mkEntry SPANS spans]).
Proof.
  unfold mergedReplayEventOf.
  rewrite lookup_insert_ne; [|done]. by rewrite lookup_insert_eq.
Qed.

Lemma mergedReplayEventOf_breakdowns (replayEvents : list Event) (spans : list Span) :
  mergedReplayEventOf replayEvents spans !! "breakdowns" = Some VNull.
Proof.
  unfold mergedReplayEventOf.
  do 2 (rewrite lookup_insert_ne; [|done]). by rewrite lookup_insert_eq.
Qed.

Lemma mergedReplayEventOf_endTimestamp (replayEvents : list Event) (spans : list Span) :
  mergedReplayEventOf replayEvents spans !! "endTimestamp"
  = Some (optional_timestamp (last spans)).
Proof.
  unfold mergedReplayEventOf. rewrite lookup_insert_eq. by rewrite at_index_last.
Qed.

(** ** The merge step *)

(** C2. For related events [A; B], where the first spans entry of [A]
    holds [s1; s2] and the first spans entry of [B] holds [s3], the
    merged replay event has a single entry, of kind spans, whose data is
    [s1; s2; s3], and its [endTimestamp] is the timestamp of [s3]. *)
Theorem merge_two_related_events (A B : Event) (entriesA entriesB : list Entry)
    (a b : Entry) (s1 s2 s3 : Span) :
  A !! "entries" = Some (VEntries entriesA) →
  List.find isReplayEventEntity entriesA = Some a →
  data a = [s1; s2] →
  B !! "entries" = Some (VEntries entriesB) →
  List.find isReplayEventEntity entriesB = Some b →
  data b = [s3] →
  ∃ merged,
    mergeReplayEvents [A; B] = Ok merged
    ∧ merged !! "entries" = Some (VEntries [mkEntry SPANS [s1; s2; s3]])
    ∧ merged !! "endTimestamp" = Some (VNumber (timestamp s3)).
Proof.
  intros HA Ha Hda HB Hb Hdb.
  assert (Hspans : flatMap spansOf [A; B] = Ok [s1; s2; s3]).
  { simpl. unfold spansOf. rewrite HA, Ha, HB, Hb, Hda, Hdb. reflexivity. }
  exists (mergedReplayEventOf [A; B] [s1; s2; s3]). split; [|split].
  - unfold mergeReplayEvents. by rewrite Hspans.
  - apply mergedReplayEventOf_entries.
  - by rewrite mergedReplayEventOf_endTimestamp.
Qed.

Lemma merge_two_related_events_witness :
  ∃ merged,
    mergeReplayEvents [Sample.A; Sample.B] = Ok merged
    ∧ merged !! "entries" = Some (VEntries [mkEntry SPANS [Sample.s1; Sample.s2; Sample.s3]])
    ∧ merged !! "endTimestamp" = Some (VNumber 1670000000300).
Proof.
  apply (merge_two_related_events Sample.A Sample.B
           [mkEntry BREADCRUMBS []; mkEntry SPANS [Sample.s1; Sample.s2]; mkEntry SPANS [Sample.s4]]
           [mkEntry SPANS [Sample.s3]]
           (mkEntry SPANS [Sample.s1; Sample.s2]) (mkEntry SPANS [Sample.s3]));
    reflexivity.
Defined.

(** C4. When the list of related events is empty, the merge step does
    not fault: it yields a merged replay event whose span sequence is
    empty and whose [endTimestamp] is [undefined]. *)
Theorem merge_no_related_events :
  ∃ merged,
    mergeReplayEvents [] = Ok merged
    ∧ merged !! "entries" = Some (VEntries [mkEntry SPANS []])
    ∧ merged !! "endTimestamp" = Some VUndefined.
Proof.
  exists (mergedReplayEventOf [] []). split; [reflexivity|]. split.
  - apply mergedReplayEventOf_entries.
  - by rewrite mergedReplayEventOf_endTimestamp.
Qed.

(** C7. When the entry list of a related event holds several entries
    tagged as spans, the first one alone contributes its spans to the
    merged result: whatever follows it in the entry list is ignored. *)
Theorem merge_first_spans_entry_only (before after : list Event) (e : Event)
    (pre later : list Entry) (first : Entry) (spansBefore spansAfter : list Span) :
  e !! "entries" = Some (VEntries (pre ++ first :: later)) →
  Forall (λ entry, isReplayEventEntity entry = false) pre →
  isReplayEventEntity first = true →
  flatMap spansOf before = Ok spansBefore →
  flatMap spansOf after = Ok spansAfter →
  ∃ merged,
    mergeReplayEvents (before ++ e :: after) = Ok merged
    ∧ merged !! "entries"
      = Some (VEntries [mkEntry SPANS (spansBefore ++ data first ++ spansAfter)]).
Proof.
  intros He Hpre Hfirst Hbefore Hafter.
  assert (Hspans : flatMap spansOf (before ++ e :: after)
                   = Ok (spansBefore ++ data first ++ spansAfter)).
  { apply flatMap_app; [done|]. simpl.
    rewrite (spansOf_first e pre first later He Hpre Hfirst). simpl.
    by rewrite Hafter. }
  eexists. split.
  - unfold mergeReplayEvents. rewrite Hspans. reflexivity.
  - apply mergedReplayEventOf_entries.
Qed.

Lemma merge_first_spans_entry_only_witness :
  ∃ merged,
    mergeReplayEvents ([Sample.B] ++ Sample.A :: [Sample.B]) = Ok merged
    ∧ merged !! "entries"
      = Some (VEntries [mkEntry SPANS ([Sample.s3] ++ [Sample.s1; Sample.s2] ++ [Sample.s3])]).
Proof.
  apply (merge_first_spans_entry_only [Sample.B] [Sample.B] Sample.A
           [mkEntry BREADCRUMBS []] [mkEntry SPANS [Sample.s4]]
           (mkEntry SPANS [Sample.s1; Sample.s2]));
    first [reflexivity | by repeat constructor].
Defined.

(** C8. For a non-empty list of related events, every attribute of the
    merged replay event other than [entries], [breakdowns] and
    [endTimestamp] is that of the first related event; [breakdowns] is
    [null], [entries] is a single spans entry holding the concatenated
    spans, and [endTimestamp] is the timestamp of the last concatenated
    span, or [undefined] when there is none. *)
Theorem merged_event_frame (first : Event) (rest : list Event) (merged : Event) :
  mergeReplayEvents (first :: rest) = Ok merged →
  ∃ spans,
    flatMap spansOf (first :: rest) = Ok spans
    ∧ (∀ attribute : string,
         attribute ≠ "entries" → attribute ≠ "breakdowns" → attribute ≠ "endTimestamp" →
         merged !! attribute = first !! attribute)
    ∧ merged !! "breakdowns" = Some VNull
    ∧ merged !! "entries" = Some (VEntries [mkEntry SPANS spans])
    ∧ merged !! "endTimestamp"
      = Some (match last spans with
              | Some span => VNumber (timestamp span)
              | None => VUndefined
              end).
Proof.
  unfold mergeReplayEvents. intros H.
  destruct (flatMap spansOf (first :: rest)) as [spans|error] eqn:Hspans; [|done].
  simpl in H. inversion H; subst merged. clear H.
  exists spans. split; [done|]. split; [|split; [|split]].
  - intros k H1 H2 H3. by rewrite mergedReplayEventOf_other.
  - apply mergedReplayEventOf_breakdowns.
  - apply mergedReplayEventOf_entries.
  - apply mergedReplayEventOf_endTimestamp.
Qed.

Lemma merged_event_frame_witness :
  ∃ spans,
    flatMap spansOf [Sample.A; Sample.B] = Ok spans
    ∧ (∀ attribute : string,
         attribute ≠ "entries" → attribute ≠ "breakdowns" → attribute ≠ "endTimestamp" →
         mergedReplayEventOf [Sample.A; Sample.B] [Sample.s1; Sample.s2; Sample.s3] !! attribute
         = Sample.A !! attribute)
    ∧ mergedReplayEventOf [Sample.A; Sample.B] [Sample.s1; Sample.s2; Sample.s3] !! "breakdowns"
      = Some VNull
    ∧ mergedReplayEventOf [Sample.A; Sample.B] [Sample.s1; Sample.s2; Sample.s3] !! "entries"
      = Some (VEntries [mkEntry SPANS spans])
    ∧ mergedReplayEventOf [Sample.A; Sample.B] [Sample.s1; Sample.s2; Sample.s3] !! "endTimestamp"
      = Some (match last spans with
              | Some span => VNumber (timestamp span)
              | None => VUndefined
              end).
Proof.
  apply (merged_event_frame Sample.A [Sample.B]). reflexivity.
Defined.

(** ** Auxiliary facts: promises *)

Lemma outcome_bind {A B} (p : Promise A) (k : A → Promise B) :
  outcome (p ≫= k) = outcome p ≫= (λ a, outcome (k a)).
Proof.
  unfold mbind at 1, Promise_bind. by destruct (outcome p).
Qed.

Lemma settledAt_bind_Err {A B} (p : Promise A) (k : A → Promise B) (error : Error) :
  outcome p = Err error → settledAt (p ≫= k) = settledAt p.
Proof.
  intros H. unfold mbind, Promise_bind. by rewrite H.
Qed.

Lemma earliest_rejection_None (ps : list (nat * option Error)) :
  Forall (λ p, p.2 = None) ps → earliest_rejection ps = None.
Proof.
  induction 1 as [|[t o] ps Ho _ IH]; simpl in *; [done|].
  by rewrite Ho, IH.
Qed.

Lemma earliest_rejection_is_Some (ps : list (nat * option Error)) :
  Exists (λ p, is_Some p.2) ps → is_Some (earliest_rejection ps).
Proof.
  induction 1 as [[t o] ps [e He]|[t o] ps _ IH]; simpl in *.
  - subst o. destruct (earliest_rejection ps) as [[t' e']|]; [|by eexists].
    destruct (t <=? t')%nat; by eexists.
  - destruct o as [e|]; [|done].
    destruct (earliest_rejection ps) as [[t' e']|]; [|by eexists].
    destruct (t <=? t')%nat; by eexists.
Qed.

(** The rejection chosen is one of the rejections, and none settles
    before it. *)
Lemma earliest_rejection_Some (ps : list (nat * option Error)) (t : nat) (e : Error) :
  earliest_rejection ps = Some (t, e) →
  (t, Some e) ∈ ps ∧ ∀ t' e', (t', Some e') ∈ ps → t ≤ t'.
Proof.
  revert t e. induction ps as [|[t0 o] ps IH]; intros t e; simpl; [done|].
  destruct o as [e0|].
  - destruct (earliest_rejection ps) as [[t1 e1]|] eqn:Hps.
    + destruct (IH t1 e1 eq_refl) as [Hin Hmin].
      destruct (Nat.leb_spec t0 t1) as [Hle|Hlt]; intros H; inversion H; subst; split.
      * left.
      * intros t' e' Hin'. apply elem_of_cons in Hin' as [Heq|Hin'].
        -- inversion Heq; subst. lia.
        -- specialize (Hmin t' e' Hin'). lia.
      * by right.
      * intros t' e' Hin'. apply elem_of_cons in Hin' as [Heq|Hin'].
        -- inversion Heq; subst. lia.
        -- by apply (Hmin t' e').
    + intros H; inversion H; subst; split; [left|].
      intros t' e' Hin'. apply elem_of_cons in Hin' as [Heq|Hin'].
      * inversion Heq; subst. lia.
      * exfalso. clear -Hps Hin'.
        assert (Hsome : is_Some (earliest_rejection ps)).
        { apply earliest_rejection_is_Some, Exists_exists.
          exists (t', Some e'). split; [done|by eexists]. }
        rewrite Hps in Hsome. by destruct Hsome.
  - intros H. destruct (IH t e H) as [Hin Hmin]. split; [by right|].
    intros t' e' Hin'. apply elem_of_cons in Hin' as [Heq|Hin']; [done|].
    by apply (Hmin t' e').
Qed.

Lemma Promise_all3_Ok {A B C} (p1 : Promise A) (p2 : Promise B) (p3 : Promise C) a b c :
  outcome p1 = Ok a → outcome p2 = Ok b → outcome p3 = Ok c →
  outcome (Promise_all3 p1 p2 p3) = Ok (a, b, c).
Proof.
  intros H1 H2 H3. unfold Promise_all3, settlement. by rewrite H1, H2, H3.
Qed.

Lemma Promise_all3_Err {A B C} (p1 : Promise A) (p2 : Promise B) (p3 : Promise C) :
  is_err (outcome p1) || is_err (outcome p2) || is_err (outcome p3) = true →
  ∃ t e,
    earliest_rejection [settlement p1; settlement p2; settlement p3] = Some (t, e)
    ∧ outcome (Promise_all3 p1 p2 p3) = Err e
    ∧ settledAt (Promise_all3 p1 p2 p3) = t.
Proof.
  intros H.
  assert (Hsome : is_Some (earliest_rejection [settlement p1; settlement p2; settlement p3])).
  { apply earliest_rejection_is_Some. unfold settlement.
    destruct (outcome p1) as [a|e1]; [|by left; eexists].
    destruct (outcome p2) as [b|e2]; [|by right; left; eexists].
    destruct (outcome p3) as [c|e3]; [done|by right; right; left; eexists]. }
  destruct Hsome as [[t e] Hte]. exists t, e. split; [done|].
  unfold Promise_all3. by rewrite Hte.
Qed.

(** ** Auxiliary facts: the load cycle *)

Section load_cycle.
Context (env : Env) (options : Options) (state : State).

(** What a cycle publishes when the three branches fulfilled. *)
Lemma published_after_fetch (event : Event) (rrwebEvents : list eventWithTime)
    (replayEvents : list Event) :
  outcome (fetchEvent env options) = Ok event →
  outcome (fetchRRWebEvents env options) = Ok rrwebEvents →
  outcome (fetchReplayEvents env options) = Ok replayEvents →
  published env options state
  = match mergeBreadcrumbsEntries env replayEvents with
    | Err error => errorState error
    | Ok breadcrumbEntry =>
        match mergeReplayEvents replayEvents with
        | Err error => errorState error
        | Ok mergedReplayEvent =>
            mkState (Some breadcrumbEntry) (Some event) None false
              (Some mergedReplayEvent) (Some replayEvents) (Some rrwebEvents)
        end
    end.
Proof.
  intros H1 H2 H3. unfold published, tryBlock.
  rewrite outcome_bind, (Promise_all3_Ok _ _ _ _ _ _ H1 H2 H3). simpl.
  rewrite outcome_bind. simpl.
  destruct (mergeBreadcrumbsEntries env replayEvents) as [crumbs|error]; simpl; [|done].
  rewrite outcome_bind. simpl.
  by destruct (mergeReplayEvents replayEvents).
Qed.

(** What a cycle publishes, and when, if the fetch rejects. *)
Lemma published_after_rejection (t : nat) (error : Error) :
  outcome (Promise_all3 (fetchEvent env options) (fetchRRWebEvents env options)
             (fetchReplayEvents env options)) = Err error →
  settledAt (Promise_all3 (fetchEvent env options) (fetchRRWebEvents env options)
               (fetchReplayEvents env options)) = t →
  published env options state = errorState error
  ∧ settledAt (tryBlock env options state) = t.
Proof.
  intros Ho Ht. unfold published, tryBlock. split.
  - by rewrite outcome_bind, Ho.
  - by rewrite (settledAt_bind_Err _ _ error Ho).
Qed.
End load_cycle.

(** ** Auxiliary facts: when a cycle settles *)

Lemma Promise_all3_settledAt_Ok {A B C} (p1 : Promise A) (p2 : Promise B) (p3 : Promise C)
    a b c :
  outcome p1 = Ok a → outcome p2 = Ok b → outcome p3 = Ok c →
  settledAt (Promise_all3 p1 p2 p3)
  = settledAt p1 `max` (settledAt p2 `max` settledAt p3).
Proof.
  intros H1 H2 H3. unfold Promise_all3, settlement. by rewrite H1, H2, H3.
Qed.

(** The merge phase is synchronous: a cycle whose branches fulfil
    settles when the last of them does. *)
Lemma settledAt_tryBlock_fulfilled (env : Env) (options : Options) (state : State)
    (rootEvent : Event) (timeline : list eventWithTime) (related : list Event) :
  outcome (fetchEvent env options) = Ok rootEvent →
  outcome (fetchRRWebEvents env options) = Ok timeline →
  outcome (fetchReplayEvents env options) = Ok related →
  settledAt (tryBlock env options state)
  = settledAt (fetchEvent env options)
      `max` (settledAt (fetchRRWebEvents env options)
               `max` settledAt (fetchReplayEvents env options)).
Proof.
  intros H1 H2 H3. unfold tryBlock. unfold mbind at 1, Promise_bind.
  rewrite (Promise_all3_Ok _ _ _ _ _ _ H1 H2 H3). cbn [settledAt].
  rewrite (Promise_all3_settledAt_Ok _ _ _ _ _ _ H1 H2 H3).
  unfold mbind, Promise_bind, settled. cbn [outcome settledAt].
  destruct (mergeBreadcrumbsEntries env related); simpl; [|lia].
  destruct (mergeReplayEvents related); simpl; lia.
Qed.

(** ** The load cycle *)

(** C1. If one of the three branches of a load cycle (root event,
    attachments, related events) rejects, the cycle publishes, at the
    instant of the earliest rejection, a state with [fetching = false],
    [fetchError] set to that rejection, and every data field
    [undefined]. *)
Theorem load_cycle_fails_fast (env : Env) (options : Options) (state : State) :
  is_err (outcome (fetchEvent env options))
  || is_err (outcome (fetchRRWebEvents env options))
  || is_err (outcome (fetchReplayEvents env options)) = true →
  ∃ (error : Error) (instant : nat),
    let branches := [settlement (fetchEvent env options);
                     settlement (fetchRRWebEvents env options);
                     settlement (fetchReplayEvents env options)] in
    let snapshot := published env options state in
    (instant, Some error) ∈ branches
    ∧ (∀ t e, (t, Some e) ∈ branches → instant ≤ t)
    ∧ setState (loadEvents env options state) = [(0, initialState); (instant, snapshot)]
    ∧ fetching snapshot = false
    ∧ fetchError snapshot = Some error
    ∧ event snapshot = None
    ∧ mergedReplayEvent snapshot = None
    ∧ replayEvents snapshot = None
    ∧ rrwebEvents snapshot = None
    ∧ breadcrumbEntry snapshot = None.
Proof.
  intros Hfail.
  destruct (Promise_all3_Err _ _ _ Hfail) as (t & e & Hearliest & Hout & Ht).
  destruct (earliest_rejection_Some _ _ _ Hearliest) as [Hin Hmin].
  destruct (published_after_rejection env options state t e Hout Ht) as [Hpub Hat].
  exists e, t. simpl. split; [done|]. split; [done|].
  split; [by unfold loadEvents; rewrite Hat|].
  by rewrite Hpub.
Qed.

Lemma load_cycle_fails_fast_witness :
  ∃ (error : Error) (instant : nat),
    let branches := [settlement (fetchEvent Sample.noAttachmentList Sample.options);
                     settlement (fetchRRWebEvents Sample.noAttachmentList Sample.options);
                     settlement (fetchReplayEvents Sample.noAttachmentList Sample.options)] in
    let snapshot := published Sample.noAttachmentList Sample.options initialState in
    (instant, Some error) ∈ branches
    ∧ (∀ t e, (t, Some e) ∈ branches → instant ≤ t)
    ∧ setState (loadEvents Sample.noAttachmentList Sample.options initialState)
      = [(0, initialState); (instant, snapshot)]
    ∧ fetching snapshot = false
    ∧ fetchError snapshot = Some error
    ∧ event snapshot = None
    ∧ mergedReplayEvent snapshot = None
    ∧ replayEvents snapshot = None
    ∧ rrwebEvents snapshot = None
    ∧ breadcrumbEntry snapshot = None.
Proof.
  apply (load_cycle_fails_fast Sample.noAttachmentList Sample.options initialState).
  reflexivity.
Defined.

(** C5, as the source has it. When no related event is found, the merge
    step does not fault: the first element of the empty list is
    [undefined], and spreading it adds no attribute. The merged event
    consists of [breakdowns = null], one empty spans entry and an
    [undefined] [endTimestamp], and the cycle publishes it without a
    [fetchError] (the breadcrumb merge permitting), in the one
    [setState] call that [loadEvents] makes after the reset. *)
Theorem no_related_events_published (env : Env) (options : Options) (state : State)
    (rootEvent : Event) (timeline : list eventWithTime) (crumbs : Entry) :
  outcome (fetchEvent env options) = Ok rootEvent →
  outcome (fetchRRWebEvents env options) = Ok timeline →
  outcome (fetchReplayEvents env options) = Ok [] →
  mergeBreadcrumbsEntries env [] = Ok crumbs →
  let merged : Event :=
    <["endTimestamp" := VUndefined]>
      (<["entries" := VEntries [mkEntry SPANS []]]> (<["breakdowns" := VNull]> ∅)) in
  mergeReplayEvents [] = Ok merged
  ∧ published env options state
    = mkState (Some crumbs) (Some rootEvent) None false (Some merged) (Some []) (Some timeline)
  ∧ ∃ instant,
      setState (loadEvents env options state)
      = [(0, initialState);
         (instant, mkState (Some crumbs) (Some rootEvent) None false (Some merged)
                     (Some []) (Some timeline))].
Proof.
  intros H1 H2 H3 Hcrumbs merged. split; [reflexivity|].
  assert (Hpublished : published env options state
                       = mkState (Some crumbs) (Some rootEvent) None false (Some merged)
                           (Some []) (Some timeline)).
  { rewrite (published_after_fetch env options state _ _ _ H1 H2 H3).
    by rewrite Hcrumbs. }
  split; [exact Hpublished|].
  exists (settledAt (tryBlock env options state)).
  unfold loadEvents. cbn [setState]. by rewrite Hpublished.
Qed.

Lemma no_related_events_published_witness :
  let merged : Event :=
    <["endTimestamp" := VUndefined]>
      (<["entries" := VEntries [mkEntry SPANS []]]> (<["breakdowns" := VNull]> ∅)) in
  mergeReplayEvents [] = Ok merged
  ∧ published Sample.unrelated Sample.options initialState
    = mkState (Some (mkEntry BREADCRUMBS [])) (Some Sample.root) None false (Some merged)
        (Some []) (Some [mkRRWeb 1670000000001 "snapshot"])
  ∧ ∃ instant,
      setState (loadEvents Sample.unrelated Sample.options initialState)
      = [(0, initialState);
         (instant, mkState (Some (mkEntry BREADCRUMBS [])) (Some Sample.root) None false
                     (Some merged) (Some []) (Some [mkRRWeb 1670000000001 "snapshot"]))].
Proof.
  apply (no_related_events_published Sample.unrelated Sample.options initialState
           Sample.root [mkRRWeb 1670000000001 "snapshot"] (mkEntry BREADCRUMBS []));
    reflexivity.
Defined.

(** C5, as stated, fails: on the empty list the merge step returns, and
    a cycle that found no related event publishes no [fetchError]. *)
Lemma no_related_events_no_fault :
  is_err (mergeReplayEvents []) = false
  ∧ fetchError (published Sample.unrelated Sample.options initialState) = None
  ∧ fetching (published Sample.unrelated Sample.options initialState) = false.
Proof. by vm_compute. Qed.

(** ** Requests *)

Lemma issued_bind {A B} (p : Promise A) (k : A → Promise B) :
  ∃ more, issued (p ≫= k) = issued p ++ more.
Proof.
  unfold mbind, Promise_bind. destruct (outcome p) as [a|e]; simpl.
  - by eexists.
  - exists []. by rewrite app_nil_r.
Qed.

Lemma issued_Promise_all {A} (ps : list (Promise A)) :
  issued (Promise_all ps) = concat (map issued ps).
Proof.
  unfold Promise_all. by destruct (earliest_rejection (map settlement ps)) as [[t e]|].
Qed.

Lemma issued_downloadAttachment (env : Env) (options : Options) (attachment : IssueAttachment) :
  issued (downloadAttachment env options attachment) = [downloadUrl options attachment].
Proof.
  unfold downloadAttachment, mbind, Promise_bind, requestPromise. simpl.
  by destruct (body (requestDownload env (downloadUrl options attachment))).
Qed.

(** The attachment collector downloads the attachments that pass
    [isRRWebEventAttachment], in the order of the list it was given, and
    no other. *)
Lemma fetchRRWebEvents_downloads (env : Env) (options : Options)
    (attachmentIds : list IssueAttachment) :
  body (requestAttachments env (attachmentsUrl options)) = Ok attachmentIds →
  issued (fetchRRWebEvents env options)
  = attachmentsUrl options
      :: map (downloadUrl options) (List.filter isRRWebEventAttachment attachmentIds).
Proof.
  intros Hlist. unfold fetchRRWebEvents.
  unfold mbind at 1, Promise_bind. simpl. rewrite Hlist. simpl. f_equal.
  set (selected := List.filter isRRWebEventAttachment attachmentIds).
  assert (Hall : issued (Promise_all (map (downloadAttachment env options) selected))
                 = map (downloadUrl options) selected).
  { rewrite issued_Promise_all. induction selected as [|a l IH]; [done|].
    simpl. by rewrite issued_downloadAttachment, IH. }
  unfold mbind, Promise_bind.
  destruct (outcome (Promise_all (map (downloadAttachment env options) selected))); simpl.
  - by rewrite app_nil_r.
  - done.
Qed.

(** Nothing is downloaded when the list cannot be fetched. *)
Lemma fetchRRWebEvents_list_rejected (env : Env) (options : Options) (error : Error) :
  body (requestAttachments env (attachmentsUrl options)) = Err error →
  issued (fetchRRWebEvents env options) = [attachmentsUrl options]
  ∧ outcome (fetchRRWebEvents env options) = Err error.
Proof.
  intros Hlist. unfold fetchRRWebEvents, mbind, Promise_bind. simpl. by rewrite Hlist.
Qed.

Lemma filter_sublist {A} (p : A → bool) (l : list A) : sublist (List.filter p l) l.
Proof.
  induction l as [|x l IH]; simpl; [constructor|].
  destruct (p x); by constructor.
Qed.

Lemma match_here_digits (n : nat) (digits rest : string) (pattern : list Atom) :
  String.length digits = n →
  all_digits digits = true →
  match_here pattern rest = true →
  match_here (replicate n (Range "0" "9") ++ pattern) (digits +:+ rest) = true.
Proof.
  revert digits. induction n as [|n IH]; intros [|c digits] Hlen Hdigits Hrest;
    simpl in *; try done.
  apply andb_prop in Hdigits as [Hc Hdigits].
  apply andb_true_intro. split; [exact Hc|].
  apply IH; [lia|done..].
Qed.

Lemma match_here_literal (prefix rest : string) (pattern : list Atom) :
  match_here (literal prefix ++ pattern) (prefix +:+ rest) = match_here pattern rest.
Proof.
  induction prefix as [|c prefix IH]; [done|].
  simpl. rewrite IH. by rewrite bool_decide_eq_true_2.
Qed.

(** A name of the form [rrweb-<13 digits>.json] passes the filter. *)
Lemma conventional_name_selected (identifier digits : string) :
  String.length digits = 13 →
  all_digits digits = true →
  isRRWebEventAttachment (mkAttachment identifier ("rrweb-" +:+ digits +:+ ".json")) = true.
Proof.
  intros Hlen Hdigits. unfold isRRWebEventAttachment. simpl name.
  assert (Hhere : match_here IS_RRWEB_ATTACHMENT_FILENAME ("rrweb-" +:+ digits +:+ ".json") = true).
  { unfold IS_RRWEB_ATTACHMENT_FILENAME. rewrite match_here_literal.
    by apply match_here_digits. }
  revert Hhere. generalize ("rrweb-" +:+ digits +:+ ".json"). intros filename Hhere.
  destruct filename; unfold test; fold test; by rewrite Hhere.
Qed.

(** C3, where the source departs from it. The pattern is searched for
    anywhere in the name and its dot stands for any character: names
    that are not of the form [rrweb-<13 digits>.json] pass the filter and
    are downloaded. *)
Theorem stray_attachments_downloaded :
  List.filter isRRWebEventAttachment Sample.strayAttachments
  = [mkAttachment "7" "rrweb-1670000000001xjson";
     mkAttachment "8" "nightly-rrweb-1670000000001.json.bak"]
  ∧ issued (fetchRRWebEvents Sample.stray Sample.options)
    = ["/projects/acme/123/events/abc/attachments/";
       "/api/0/projects/acme/123/events/abc/attachments/7/?download";
       "/api/0/projects/acme/123/events/abc/attachments/8/?download"].
Proof. split; reflexivity. Qed.

(** When the attachment list cannot be fetched, the cycle publishes a
    state in which [fetchError] is set and [mergedReplayEvent], [event]
    and [replayEvents] are [undefined]. *)
Lemma attachment_list_failure_aborts (env : Env) (options : Options) (state : State)
    (cause : Error) :
  body (requestAttachments env (attachmentsUrl options)) = Err cause →
  ∃ error,
    published env options state = errorState error
    ∧ (error = cause ∨ is_err (outcome (fetchEvent env options)) = true
       ∨ is_err (outcome (fetchReplayEvents env options)) = true).
Proof.
  intros Hlist.
  destruct (fetchRRWebEvents_list_rejected env options cause Hlist) as [_ Hrejected].
  destruct (Promise_all3_Err (fetchEvent env options) (fetchRRWebEvents env options)
              (fetchReplayEvents env options)) as (t & e & Hearliest & Hout & Ht).
  { rewrite Hrejected. simpl. by rewrite orb_true_r. }
  exists e. split.
  - by destruct (published_after_rejection env options state t e Hout Ht).
  - destruct (earliest_rejection_Some _ _ _ Hearliest) as [Hin _].
    unfold settlement in Hin. rewrite Hrejected in Hin.
    destruct (outcome (fetchEvent env options)) as [a|e1]; [|by right; left].
    destruct (outcome (fetchReplayEvents env options)) as [c|e3]; [|by right; right].
    left. cbn [error_of] in Hin.
    apply elem_of_cons in Hin as [Hin|Hin]; [by inversion Hin|].
    apply elem_of_cons in Hin as [Hin|Hin]; [by inversion Hin|].
    apply elem_of_cons in Hin as [Hin|Hin]; [by inversion Hin|].
    by apply elem_of_nil in Hin.
Qed.

(** ** The slug *)

Lemma split_without_separator (sep : ascii) (s : string) :
  contains sep s = false → split sep s = [s].
Proof.
  induction s as [|c s IH]; simpl; [done|].
  intros H. apply orb_false_elim in H as [Hc Hs].
  destruct (decide (c = sep)) as [->|_].
  - by rewrite bool_decide_eq_false in Hc.
  - by rewrite (IH Hs).
Qed.

Lemma split_at_separator (sep : ascii) (p rest : string) :
  contains sep p = false →
  split sep (p +:+ String sep rest) = p :: split sep rest.
Proof.
  induction p as [|c p IH]; simpl.
  - intros _. by destruct (decide (sep = sep)).
  - intros H. apply orb_false_elim in H as [Hc Hp].
    destruct (decide (c = sep)) as [->|_].
    + by rewrite bool_decide_eq_false in Hc.
    + by rewrite (IH Hp).
Qed.

Lemma issued_Promise_all3 {A B C} (p1 : Promise A) (p2 : Promise B) (p3 : Promise C) :
  issued (Promise_all3 p1 p2 p3) = issued p1 ++ issued p2 ++ issued p3.
Proof.
  unfold Promise_all3. by destruct (earliest_rejection _) as [[t e]|].
Qed.

Ltac issued_of_await more :=
  match goal with
  | |- context [issued (?p ≫= ?k)] =>
      let H := fresh "Hmore" in
      destruct (issued_bind p k) as [more H]; rewrite H; clear H
  end.

(** Whatever the options, a load cycle sends the request for the root
    event, the request for the attachment list and the query of the
    index. *)
Lemma sent_by_loadEvents (env : Env) (options : Options) (state : State) :
  ∃ downloads related more,
    sent (loadEvents env options state)
    = (eventUrl options (eventSlug options)
         :: attachmentsUrl options :: downloads ++ eventsV2Url options :: related) ++ more.
Proof.
  unfold loadEvents, tryBlock. simpl sent.
  issued_of_await more. rewrite issued_Promise_all3.
  unfold fetchRRWebEvents. issued_of_await downloads.
  unfold fetchReplayEvents. issued_of_await related.
  by exists downloads, related, more.
Qed.

(** C6, as the source has it. From a slug [p:e] in which neither [p] nor
    [e] holds a colon, the hook reads [projectId = p] and [eventId = e].
    It rejects no slug: whatever [eventSlug] holds, the load cycle sends
    the request for the root event, the request for the attachment list
    and the query of the index. *)
Theorem slug_parsed_never_validated (env : Env) (state : State)
    (p e slug place organisation : string) :
  contains ":" p = false →
  contains ":" e = false →
  (projectId (mkOptions (p +:+ ":" +:+ e) place organisation) = Some p
   ∧ eventId (mkOptions (p +:+ ":" +:+ e) place organisation) = Some e)
  ∧ (let options := mkOptions slug place organisation in
     let requests := sent (loadEvents env options state) in
     eventUrl options slug ∈ requests
     ∧ attachmentsUrl options ∈ requests
     ∧ eventsV2Url options ∈ requests).
Proof.
  intros Hp He. split.
  - unfold projectId, eventId, parseSlug. simpl eventSlug.
    change (p +:+ ":" +:+ e) with (p +:+ String ":" e).
    rewrite (split_at_separator ":" p e Hp), (split_without_separator ":" e He).
    by split.
  - intros options requests. subst requests.
    destruct (sent_by_loadEvents env options state)
      as (downloads & related & more & Hsent).
    rewrite Hsent. change (eventSlug options) with slug.
    repeat split; set_solver.
Qed.

Lemma slug_parsed_never_validated_witness :
  (projectId (mkOptions ("123" +:+ ":" +:+ "abc") "?statsPeriod=14d" "acme") = Some "123"
   ∧ eventId (mkOptions ("123" +:+ ":" +:+ "abc") "?statsPeriod=14d" "acme") = Some "abc")
  ∧ (let options := mkOptions "abc" "?statsPeriod=14d" "acme" in
     let requests := sent (loadEvents Sample.healthy options initialState) in
     eventUrl options "abc" ∈ requests
     ∧ attachmentsUrl options ∈ requests
     ∧ eventsV2Url options ∈ requests).
Proof.
  apply (slug_parsed_never_validated Sample.healthy initialState "123" "abc" "abc"
           "?statsPeriod=14d" "acme");
    reflexivity.
Defined.

(** C6, as stated, fails on a slug without a colon: [eventId] is
    [undefined], no error is raised, the requests leave all the same,
    and with a server that answers them the cycle ends without a
    [fetchError]. *)
Lemma malformed_slug_not_rejected :
  parseSlug "abc" = (Some "abc", None)
  ∧ sent (loadEvents Sample.healthy Sample.malformedOptions initialState)
    = ["/organizations/acme/events/abc/";
       "/projects/acme/abc/events/undefined/attachments/";
       "/api/0/projects/acme/abc/events/undefined/attachments/1/?download";
       "/organizations/acme/eventsv2/";
       "/organizations/acme/events/web:a/";
       "/organizations/acme/events/web:b/"]
  ∧ fetchError (published Sample.healthy Sample.malformedOptions initialState) = None.
Proof. repeat split; reflexivity. Qed.

(** ** The hook over time *)

(** Decides the comparisons of instants in the goal, innermost first. *)
Ltac decide_instants :=
  repeat match goal with
         | |- context [(?a <=? ?b)] =>
             first [rewrite (proj2 (Nat.leb_le a b)) by lia
                   | rewrite (proj2 (Nat.leb_gt a b)) by lia];
             cbn [andb fst snd]
         end.

Lemma stateAt_late_completion (start restart d1 d2 now : nat) (s0 s1 s2 s3 : State) :
  start ≤ restart →
  restart + d2 < start + d1 →
  start + d1 ≤ now →
  stateAt [(start + 0, s0); (start + d1, s1); (restart + 0, s2); (restart + d2, s3)] now = s1.
Proof.
  intros H1 H2 H3. unfold stateAt. cbn [fold_left fst snd].
  by decide_instants.
Qed.

(** A single cycle: once it has settled, the hook returns what the cycle
    published. *)
Lemma useReplayEvent_single_cycle (env : Env) (options : Options) (now : nat) :
  settledAt (tryBlock env options initialState) ≤ now →
  useReplayEvent env [(0, options)] now = published env options initialState.
Proof.
  intros Hnow. unfold useReplayEvent. cbn [runEffects].
  destruct (decide (None = Some (deps options))) as [Heq|_]; [done|].
  unfold stateAt, loadEvents, delay. cbn [setState map app fold_left fst snd].
  by decide_instants.
Qed.

(** While its only cycle is in flight, the hook returns the state in
    which [fetching] is [true] and nothing else is set. *)
Lemma useReplayEvent_single_cycle_pending (env : Env) (options : Options) (now : nat) :
  now < settledAt (tryBlock env options initialState) →
  useReplayEvent env [(0, options)] now = initialState.
Proof.
  intros Hnow. unfold useReplayEvent. cbn [runEffects].
  destruct (decide (None = Some (deps options))) as [Heq|_]; [done|].
  unfold stateAt, loadEvents, delay. cbn [setState map app fold_left fst snd].
  by decide_instants.
Qed.

(** C10. If the three branches fulfil but a related event has no entry
    tagged as spans, the fault of the merge phase reaches the handler
    that serves fetch failures: once the last branch has fulfilled,
    [loadEvents] calls [setState] with a state in which [fetchError] is
    set and every data field is [undefined], this is its only call
    after the reset, and it is what the hook returns from then on.
    Unless the breadcrumb merge failed before it, the error is the
    [TypeError] of the merge step. *)
Theorem merge_fault_is_caught (env : Env) (options : Options) (state : State)
    (rootEvent : Event) (timeline : list eventWithTime) (related : list Event)
    (replayEvent : Event) (entries : list Entry) :
  outcome (fetchEvent env options) = Ok rootEvent →
  outcome (fetchRRWebEvents env options) = Ok timeline →
  outcome (fetchReplayEvents env options) = Ok related →
  replayEvent ∈ related →
  replayEvent !! "entries" = Some (VEntries entries) →
  List.find isReplayEventEntity entries = None →
  ∃ error : Error,
    let snapshot := published env options state in
    let instant :=
      settledAt (fetchEvent env options)
        `max` (settledAt (fetchRRWebEvents env options)
                 `max` settledAt (fetchReplayEvents env options)) in
    setState (loadEvents env options state) = [(0, initialState); (instant, snapshot)]
    ∧ (∀ now, instant ≤ now → useReplayEvent env [(0, options)] now = snapshot)
    ∧ fetching snapshot = false
    ∧ fetchError snapshot = Some error
    ∧ event snapshot = None
    ∧ mergedReplayEvent snapshot = None
    ∧ replayEvents snapshot = None
    ∧ rrwebEvents snapshot = None
    ∧ breadcrumbEntry snapshot = None
    ∧ (is_err (mergeBreadcrumbsEntries env related) = false → ∃ detail, error = TypeError detail).
Proof.
  intros H1 H2 H3 Hin Hentries Hfind.
  assert (Hthrows : is_err (spansOf replayEvent) = true).
  { unfold spansOf. by rewrite Hentries, Hfind. }
  assert (Hmerge : is_err (mergeReplayEvents related) = true).
  { unfold mergeReplayEvents.
    pose proof (flatMap_Err_elem spansOf related replayEvent Hin Hthrows) as Hflat.
    by destruct (flatMap spansOf related). }
  assert (Hcalls : setState (loadEvents env options state)
                   = [(0, initialState);
                      (settledAt (fetchEvent env options)
                         `max` (settledAt (fetchRRWebEvents env options)
                                  `max` settledAt (fetchReplayEvents env options)),
                       published env options state)]).
  { unfold loadEvents. cbn [setState].
    by rewrite (settledAt_tryBlock_fulfilled env options state _ _ _ H1 H2 H3). }
  assert (Hhook : ∀ now,
             settledAt (fetchEvent env options)
               `max` (settledAt (fetchRRWebEvents env options)
                        `max` settledAt (fetchReplayEvents env options)) ≤ now →
             useReplayEvent env [(0, options)] now = published env options state).
  { intros now Hnow. apply (useReplayEvent_single_cycle env options now).
    by rewrite (settledAt_tryBlock_fulfilled env options initialState _ _ _ H1 H2 H3). }
  cbv zeta. revert Hcalls Hhook.
  rewrite (published_after_fetch env options state _ _ _ H1 H2 H3).
  destruct (mergeBreadcrumbsEntries env related) as [crumbs|error]; simpl.
  - destruct (mergeReplayEvents related) as [merged|error] eqn:Hmerged; [done|].
    intros Hcalls Hhook. exists error. split; [exact Hcalls|]. split; [exact Hhook|].
    repeat (split; [reflexivity|]). intros _.
    unfold mergeReplayEvents in Hmerged.
    destruct (flatMap spansOf related) as [spans|error'] eqn:Hflat; [done|].
    simpl in Hmerged. inversion Hmerged; subst error'.
    by apply (flatMap_spansOf_TypeError related).
  - intros Hcalls Hhook. exists error. split; [exact Hcalls|]. split; [exact Hhook|].
    repeat (split; [reflexivity|]). done.
Qed.

Lemma merge_fault_is_caught_witness :
  ∃ error : Error,
    let snapshot := published Sample.spanless Sample.options initialState in
    let instant :=
      settledAt (fetchEvent Sample.spanless Sample.options)
        `max` (settledAt (fetchRRWebEvents Sample.spanless Sample.options)
                 `max` settledAt (fetchReplayEvents Sample.spanless Sample.options)) in
    setState (loadEvents Sample.spanless Sample.options initialState)
    = [(0, initialState); (instant, snapshot)]
    ∧ (∀ now, instant ≤ now →
              useReplayEvent Sample.spanless [(0, Sample.options)] now = snapshot)
    ∧ fetching snapshot = false
    ∧ fetchError snapshot = Some error
    ∧ event snapshot = None
    ∧ mergedReplayEvent snapshot = None
    ∧ replayEvents snapshot = None
    ∧ rrwebEvents snapshot = None
    ∧ breadcrumbEntry snapshot = None
    ∧ (is_err (mergeBreadcrumbsEntries Sample.spanless [Sample.A; Sample.C]) = false →
       ∃ detail, error = TypeError detail).
Proof.
  apply (merge_fault_is_caught Sample.spanless Sample.options initialState
           Sample.root [mkRRWeb 1670000000001 "snapshot"] [Sample.A; Sample.C]
           Sample.C [mkEntry BREADCRUMBS []]);
    first [reflexivity | by right; left].
Defined.

(** C9, as the source has it. The hook has no guard against stale
    results: when [eventSlug] (or [orgId]) changes while a load cycle is
    in flight and that cycle settles after the one started for the new
    options, its state is published when it settles and replaces the
    state of the newer cycle. *)
Theorem stale_cycle_overwrites (env : Env) (prior next : Options) (start restart now : nat) :
  deps prior ≠ deps next →
  start ≤ restart →
  restart + settledAt (tryBlock env next initialState)
    < start + settledAt (tryBlock env prior initialState) →
  start + settledAt (tryBlock env prior initialState) ≤ now →
  useReplayEvent env [(start, prior); (restart, next)] now
  = published env prior initialState.
Proof.
  intros Hdeps H1 H2 H3. unfold useReplayEvent. simpl runEffects.
  destruct (decide (Some (deps prior) = Some (deps next))) as [Heq|_].
  { inversion Heq. congruence. }
  unfold delay. simpl.
  exact (stateAt_late_completion start restart _ _ now _ _ _ _ H1 H2 H3).
Qed.

Lemma stale_cycle_overwrites_witness :
  useReplayEvent Sample.slowRoot [(0, Sample.options); (2, Sample.nextOptions)] 10
  = published Sample.slowRoot Sample.options initialState.
Proof.
  apply (stale_cycle_overwrites Sample.slowRoot Sample.options Sample.nextOptions 0 2 10).
  - vm_compute. intros H. inversion H.
  - lia.
  - vm_compute. lia.
  - vm_compute. lia.
Defined.

(** C9, as stated, fails: the cycle started at instant 0 for [123:abc]
    settles at instant 10, after the cycle started at instant 2 for
    [123:xyz] has published; from then on the hook returns the root
    event of [123:abc]. *)
Lemma stale_cycle_is_published :
  let renders := [(0, Sample.options); (2, Sample.nextOptions)] in
  event (useReplayEvent Sample.slowRoot renders 9) = Some Sample.B
  ∧ event (useReplayEvent Sample.slowRoot renders 10) = Some Sample.root
  ∧ event (published Sample.slowRoot Sample.nextOptions initialState) = Some Sample.B.
Proof. repeat split; reflexivity. Qed.

(** * Further properties of the hook *)

(** ** Auxiliary facts: [Promise.all] *)

Lemma values_Ok {A} (ps : list (Promise A)) (l : list A) :
  Forall2 (λ p a, outcome p = Ok a) ps l → values ps = Ok l.
Proof.
  induction 1 as [|p a ps l Hp _ IH]; simpl; [done|].
  by rewrite Hp, IH.
Qed.

Lemma no_rejection {A} (ps : list (Promise A)) (l : list A) :
  Forall2 (λ p a, outcome p = Ok a) ps l →
  earliest_rejection (map settlement ps) = None.
Proof.
  induction 1 as [|p a ps l Hp _ IH]; simpl; [done|].
  by rewrite Hp, IH.
Qed.

Lemma Promise_all_Ok {A} (ps : list (Promise A)) (l : list A) :
  Forall2 (λ p a, outcome p = Ok a) ps l → outcome (Promise_all ps) = Ok l.
Proof.
  intros Hall. unfold Promise_all. rewrite (no_rejection ps l Hall). simpl.
  by apply values_Ok.
Qed.

Lemma Promise_all_Err {A} (ps : list (Promise A)) (p : Promise A) :
  p ∈ ps → is_err (outcome p) = true → is_err (outcome (Promise_all ps)) = true.
Proof.
  intros Hin Herr.
  assert (Hsome : is_Some (earliest_rejection (map settlement ps))).
  { apply earliest_rejection_is_Some, Exists_exists.
    exists (settlement p). split.
    - apply list_elem_of_In, in_map, list_elem_of_In, Hin.
    - unfold settlement. simpl. destruct (outcome p); [done|by eexists]. }
  destruct Hsome as [[t e] Hte]. unfold Promise_all. by rewrite Hte.
Qed.

Lemma outcome_downloadAttachment (env : Env) (options : Options) (attachment : IssueAttachment) :
  outcome (downloadAttachment env options attachment)
  = body (requestDownload env (downloadUrl options attachment)) ≫= JSON_parse_events env.
Proof.
  unfold downloadAttachment. rewrite outcome_bind. simpl.
  by destruct (body (requestDownload env (downloadUrl options attachment))).
Qed.

Lemma outcome_fetchRRWebEvents (env : Env) (options : Options)
    (attachmentIds : list IssueAttachment) :
  body (requestAttachments env (attachmentsUrl options)) = Ok attachmentIds →
  outcome (fetchRRWebEvents env options)
  = outcome (Promise_all (map (downloadAttachment env options)
                            (List.filter isRRWebEventAttachment attachmentIds)))
      ≫= (λ attachments, Ok (concat attachments)).
Proof.
  intros Hlist. unfold fetchRRWebEvents.
  rewrite outcome_bind. simpl. rewrite Hlist. simpl.
  rewrite outcome_bind. by destruct (outcome (Promise_all _)).
Qed.

Lemma downloads_fulfil (env : Env) (options : Options)
    (parsed : IssueAttachment → list eventWithTime) (l : list IssueAttachment) :
  (∀ a, a ∈ l → isRRWebEventAttachment a = true →
        ∃ response,
          body (requestDownload env (downloadUrl options a)) = Ok response
          ∧ JSON_parse_events env response = Ok (parsed a)) →
  Forall2 (λ p events, outcome p = Ok events)
    (map (downloadAttachment env options) (List.filter isRRWebEventAttachment l))
    (map parsed (List.filter isRRWebEventAttachment l)).
Proof.
  induction l as [|a l IH]; intros Hparsed; simpl; [constructor|].
  assert (Hrest : Forall2 (λ p events, outcome p = Ok events)
            (map (downloadAttachment env options) (List.filter isRRWebEventAttachment l))
            (map parsed (List.filter isRRWebEventAttachment l))).
  { apply IH. intros b Hb. apply Hparsed. by right. }
  destruct (isRRWebEventAttachment a) eqn:Ha; [|done].
  simpl. constructor; [|done].
  rewrite outcome_downloadAttachment.
  destruct (Hparsed a) as (response & Hbody & Hevents); [left|done|].
  by rewrite Hbody.
Qed.

(** ** The attachment collector *)

(** X1. When the attachment list is fetched, the collector sends the
    list request and then one download request for each element of the
    list that passes [isRRWebEventAttachment], in the order of the list
    and as often as the element occurs in it, and no other request; this
    holds whether the downloads succeed or not. *)
Theorem collector_requests (env : Env) (options : Options)
    (attachmentIds : list IssueAttachment) :
  body (requestAttachments env (attachmentsUrl options)) = Ok attachmentIds →
  issued (fetchRRWebEvents env options)
  = attachmentsUrl options
      :: map (downloadUrl options) (List.filter isRRWebEventAttachment attachmentIds)
  ∧ sublist (List.filter isRRWebEventAttachment attachmentIds) attachmentIds
  ∧ (∀ a, a ∈ List.filter isRRWebEventAttachment attachmentIds
          ↔ a ∈ attachmentIds ∧ isRRWebEventAttachment a = true).
Proof.
  intros Hlist. split; [by apply fetchRRWebEvents_downloads|].
  split; [apply filter_sublist|].
  intros a. rewrite !list_elem_of_In, filter_In. done.
Qed.

Lemma collector_requests_witness :
  issued (fetchRRWebEvents Sample.repeated Sample.options)
  = attachmentsUrl Sample.options
      :: map (downloadUrl Sample.options)
           (List.filter isRRWebEventAttachment Sample.repeatedRecordings)
  ∧ sublist (List.filter isRRWebEventAttachment Sample.repeatedRecordings)
      Sample.repeatedRecordings
  ∧ (∀ a, a ∈ List.filter isRRWebEventAttachment Sample.repeatedRecordings
          ↔ a ∈ Sample.repeatedRecordings ∧ isRRWebEventAttachment a = true).
Proof.
  apply (collector_requests Sample.repeated Sample.options Sample.repeatedRecordings).
  reflexivity.
Defined.

(** X2. When the list, every download and every parse succeed, the
    collector returns the events of the selected attachments flattened
    into one sequence, attachment after attachment in list order. *)
Theorem collector_flattens_in_order (env : Env) (options : Options)
    (attachmentIds : list IssueAttachment)
    (parsed : IssueAttachment → list eventWithTime) :
  body (requestAttachments env (attachmentsUrl options)) = Ok attachmentIds →
  (∀ a, a ∈ attachmentIds → isRRWebEventAttachment a = true →
        ∃ response,
          body (requestDownload env (downloadUrl options a)) = Ok response
          ∧ JSON_parse_events env response = Ok (parsed a)) →
  outcome (fetchRRWebEvents env options)
  = Ok (concat (map parsed (List.filter isRRWebEventAttachment attachmentIds))).
Proof.
  intros Hlist Hparsed. rewrite (outcome_fetchRRWebEvents env options _ Hlist).
  by rewrite (Promise_all_Ok _ _ (downloads_fulfil env options parsed _ Hparsed)).
Qed.

Lemma collector_flattens_in_order_witness :
  outcome (fetchRRWebEvents Sample.recorded Sample.options)
  = Ok (concat (map (λ a, [mkRRWeb 1670000000001 (downloadUrl Sample.options a)])
                  (List.filter isRRWebEventAttachment Sample.twoRecordings))).
Proof.
  apply (collector_flattens_in_order Sample.recorded Sample.options Sample.twoRecordings
           (λ a, [mkRRWeb 1670000000001 (downloadUrl Sample.options a)])).
  - reflexivity.
  - intros a _ _. by eexists.
Defined.

(** X3. A selected attachment whose download is rejected, or whose
    content does not parse, makes the collector reject: no attachment is
    skipped; and the cycle then publishes an error state, in the one
    [setState] call that [loadEvents] makes after the reset. *)
Theorem collector_propagates_failure (env : Env) (options : Options) (state : State)
    (attachmentIds : list IssueAttachment) (a : IssueAttachment) :
  body (requestAttachments env (attachmentsUrl options)) = Ok attachmentIds →
  a ∈ attachmentIds →
  isRRWebEventAttachment a = true →
  is_err (body (requestDownload env (downloadUrl options a)) ≫= JSON_parse_events env) = true →
  is_err (outcome (fetchRRWebEvents env options)) = true
  ∧ ∃ error,
      published env options state = errorState error
      ∧ ∃ instant,
          setState (loadEvents env options state)
          = [(0, initialState); (instant, errorState error)].
Proof.
  intros Hlist Hin Ha Hfail.
  assert (Hbranch : is_err (outcome (fetchRRWebEvents env options)) = true).
  { rewrite (outcome_fetchRRWebEvents env options _ Hlist).
    assert (Hall : is_err (outcome (Promise_all
                     (map (downloadAttachment env options)
                        (List.filter isRRWebEventAttachment attachmentIds)))) = true).
    { apply (Promise_all_Err _ (downloadAttachment env options a)).
      - apply list_elem_of_In, in_map, filter_In. split; [by apply list_elem_of_In|done].
      - by rewrite outcome_downloadAttachment. }
    by destruct (outcome (Promise_all _)). }
  split; [done|].
  destruct (Promise_all3_Err (fetchEvent env options) (fetchRRWebEvents env options)
              (fetchReplayEvents env options)) as (t & e & _ & Hout & Ht).
  { rewrite Hbranch. simpl. by rewrite orb_true_r. }
  destruct (published_after_rejection env options state t e Hout Ht) as [Hpublished Hat].
  exists e. split; [done|]. exists t.
  unfold loadEvents. cbn [setState]. by rewrite Hat, Hpublished.
Qed.

Lemma collector_propagates_failure_witness :
  is_err (outcome (fetchRRWebEvents Sample.corrupt Sample.options)) = true
  ∧ ∃ error,
      published Sample.corrupt Sample.options initialState = errorState error
      ∧ ∃ instant,
          setState (loadEvents Sample.corrupt Sample.options initialState)
          = [(0, initialState); (instant, errorState error)].
Proof.
  apply (collector_propagates_failure Sample.corrupt Sample.options initialState
           Sample.attachments (mkAttachment "1" "rrweb-1670000000001.json"));
    first [reflexivity | by left].
Defined.

(** X4. When the attachment list cannot be fetched, the collector
    rejects with the error of the list request as soon as that request
    is answered, and has sent no download request. *)
Theorem collector_list_failure (env : Env) (options : Options) (cause : Error) :
  body (requestAttachments env (attachmentsUrl options)) = Err cause →
  issued (fetchRRWebEvents env options) = [attachmentsUrl options]
  ∧ outcome (fetchRRWebEvents env options) = Err cause
  ∧ settledAt (fetchRRWebEvents env options)
    = latency (requestAttachments env (attachmentsUrl options)).
Proof.
  intros Hlist. unfold fetchRRWebEvents, mbind, Promise_bind. simpl. by rewrite Hlist.
Qed.

Lemma collector_list_failure_witness :
  issued (fetchRRWebEvents Sample.noAttachmentList Sample.options)
  = [attachmentsUrl Sample.options]
  ∧ outcome (fetchRRWebEvents Sample.noAttachmentList Sample.options)
    = Err (RequestError "500")
  ∧ settledAt (fetchRRWebEvents Sample.noAttachmentList Sample.options)
    = latency (requestAttachments Sample.noAttachmentList (attachmentsUrl Sample.options)).
Proof.
  apply (collector_list_failure Sample.noAttachmentList Sample.options (RequestError "500")).
  reflexivity.
Defined.

(** ** The names the filter accepts *)

Lemma append_nil_l (s : string) : "" +:+ s = s.
Proof. reflexivity. Qed.

Lemma append_cons (c : ascii) (p s : string) : String c p +:+ s = String c (p +:+ s).
Proof. reflexivity. Qed.

Lemma test_somewhere (pattern : list Atom) (s : string) :
  test pattern s = true ↔ ∃ pre rest, s = pre +:+ rest ∧ match_here pattern rest = true.
Proof.
  induction s as [|c s IH].
  - simpl. rewrite orb_false_r. split.
    + intros H. by exists "", "".
    + intros (pre & rest & Hs & H). destruct pre; [|done].
      rewrite append_nil_l in Hs. by subst rest.
  - unfold test; fold test. rewrite orb_true_iff, IH. split.
    + intros [H|(pre & rest & -> & H)].
      * by exists "", (String c s).
      * by exists (String c pre), rest.
    + intros (pre & rest & Hs & H). destruct pre as [|c' pre].
      * left. rewrite append_nil_l in Hs. by subst rest.
      * right. rewrite append_cons in Hs. inversion Hs; subst. by exists pre, rest.
Qed.

Lemma match_here_literal_inv (prefix : string) (pattern : list Atom) (s : string) :
  match_here (literal prefix ++ pattern) s = true
  ↔ ∃ rest, s = prefix +:+ rest ∧ match_here pattern rest = true.
Proof.
  revert s. induction prefix as [|c prefix IH]; intros s.
  - simpl. split; [by exists s|]. by intros (rest & -> & H).
  - simpl. destruct s as [|d s].
    + split; [done|]. by intros (rest & Hs & _).
    + rewrite andb_true_iff, bool_decide_eq_true, IH. split.
      * intros [-> (rest & -> & H)]. by exists rest.
      * intros (rest & Hs & H). inversion Hs; subst. split; [done|by exists rest].
Qed.

Lemma match_here_digits_inv (n : nat) (pattern : list Atom) (s : string) :
  match_here (replicate n (Range "0" "9") ++ pattern) s = true
  ↔ ∃ digits rest,
      s = digits +:+ rest ∧ String.length digits = n ∧ all_digits digits = true
      ∧ match_here pattern rest = true.
Proof.
  revert s. induction n as [|n IH]; intros s.
  - simpl. split.
    + intros H. by exists "", s.
    + intros (digits & rest & -> & Hlen & _ & H). by destruct digits.
  - simpl. destruct s as [|d s].
    + split; [done|]. intros (digits & rest & Hs & Hlen & _). by destruct digits.
    + rewrite andb_true_iff, IH. split.
      * intros [Hd (digits & rest & -> & Hlen & Hdigits & H)].
        exists (String d digits), rest. simpl. rewrite Hlen, Hdigits.
        repeat split; try done. by apply andb_true_intro.
      * intros (digits & rest & Hs & Hlen & Hdigits & H).
        destruct digits as [|d' digits]; [done|].
        simpl in *. inversion Hs; subst. apply andb_prop in Hdigits as [Hd Hdigits].
        split; [done|]. exists digits, rest. repeat split; try done. lia.
Qed.

(** X5. The names the filter accepts are exactly those that contain,
    at some offset, [rrweb-], thirteen decimal digits, one character
    that is not a line terminator, and [json]. *)
Theorem filter_accepts_exactly (attachment : IssueAttachment) :
  isRRWebEventAttachment attachment = true
  ↔ ∃ (pre digits : string) (c : ascii) (post : string),
      name attachment = pre +:+ "rrweb-" +:+ digits +:+ String c ("json" +:+ post)
      ∧ String.length digits = 13
      ∧ all_digits digits = true
      ∧ is_line_terminator c = false.
Proof.
  unfold isRRWebEventAttachment, IS_RRWEB_ATTACHMENT_FILENAME.
  rewrite test_somewhere. split.
  - intros (pre & rest & Hname & Hhere).
    apply match_here_literal_inv in Hhere as (rest1 & -> & Hhere).
    apply match_here_digits_inv in Hhere as (digits & rest2 & -> & Hlen & Hdigits & Hhere).
    destruct rest2 as [|c rest2]; [done|].
    simpl in Hhere. apply andb_prop in Hhere as [Hc Hhere].
    apply (match_here_literal_inv "json" [] rest2) in Hhere as (post & -> & _).
    exists pre, digits, c, post. repeat split; try done.
    by apply negb_true_iff.
  - intros (pre & digits & c & post & Hname & Hlen & Hdigits & Hc).
    exists pre, ("rrweb-" +:+ digits +:+ String c ("json" +:+ post)). split; [done|].
    apply match_here_literal_inv. eexists. split; [reflexivity|].
    apply match_here_digits_inv. exists digits, (String c ("json" +:+ post)).
    repeat split; try done. simpl. rewrite Hc. simpl.
    by rewrite ?bool_decide_eq_true_2.
Qed.

(** ** The related events *)

Lemma issued_related_requests (env : Env) (options : Options) (rows : list EventData) :
  concat (map issued
            (map (λ row, requestPromise (eventUrl options (generateEventSlug env row))
                           (requestEvent env (eventUrl options (generateEventSlug env row))))
               rows))
  = map (relatedEventUrl env options) rows.
Proof.
  induction rows as [|row rows IH]; [done|]. simpl. by rewrite IH.
Qed.

Lemma issued_fetchReplayEvents (env : Env) (options : Options) (rows : list EventData) :
  body (requestEventsV2 env (eventsV2Url options) (replayEventsQuery env options)) = Ok rows →
  issued (fetchReplayEvents env options)
  = eventsV2Url options :: map (relatedEventUrl env options) rows.
Proof.
  intros Hrows. unfold fetchReplayEvents, replayEventsQuery in *.
  unfold mbind, Promise_bind. simpl. rewrite Hrows. simpl. f_equal.
  rewrite issued_Promise_all. apply issued_related_requests.
Qed.

Lemma outcome_fetchReplayEvents (env : Env) (options : Options) (rows : list EventData) :
  body (requestEventsV2 env (eventsV2Url options) (replayEventsQuery env options)) = Ok rows →
  outcome (fetchReplayEvents env options)
  = outcome (Promise_all
               (map (λ row, requestPromise (relatedEventUrl env options row)
                              (requestEvent env (relatedEventUrl env options row)))
                  rows)).
Proof.
  intros Hrows. unfold fetchReplayEvents, replayEventsQuery in *.
  rewrite outcome_bind. simpl. by rewrite Hrows.
Qed.

(** X6. When the index answers and every event it lists can be read,
    the related events are returned in the order of the index, one
    request having been sent per row after the query, in that order. *)
Theorem related_events_in_index_order (env : Env) (options : Options)
    (rows : list EventData) (found : EventData → Event) :
  body (requestEventsV2 env (eventsV2Url options) (replayEventsQuery env options)) = Ok rows →
  (∀ row, row ∈ rows →
          body (requestEvent env (relatedEventUrl env options row)) = Ok (found row)) →
  outcome (fetchReplayEvents env options) = Ok (map found rows)
  ∧ issued (fetchReplayEvents env options)
    = eventsV2Url options :: map (relatedEventUrl env options) rows.
Proof.
  intros Hrows Hfound. split; [|by apply issued_fetchReplayEvents].
  rewrite (outcome_fetchReplayEvents env options rows Hrows).
  apply Promise_all_Ok. clear Hrows.
  induction rows as [|row rows IH]; simpl; constructor.
  - simpl. apply Hfound. left.
  - apply IH. intros r Hr. apply Hfound. by right.
Qed.

Lemma related_events_in_index_order_witness :
  outcome (fetchReplayEvents Sample.healthy Sample.options)
  = Ok (map (λ row, if String.eqb (row_id row) "a" then Sample.A else Sample.B) Sample.rowsAB)
  ∧ issued (fetchReplayEvents Sample.healthy Sample.options)
    = eventsV2Url Sample.options
        :: map (relatedEventUrl Sample.healthy Sample.options) Sample.rowsAB.
Proof.
  apply (related_events_in_index_order Sample.healthy Sample.options Sample.rowsAB
           (λ row, if String.eqb (row_id row) "a" then Sample.A else Sample.B)).
  - reflexivity.
  - intros row Hrow. apply elem_of_cons in Hrow as [->|Hrow]; [reflexivity|].
    apply elem_of_cons in Hrow as [->|Hrow]; [reflexivity|].
    by apply elem_of_nil in Hrow.
Defined.

(** X7. A listed event that cannot be read makes the related-event
    fetch reject, the other events having been requested all the same,
    and the cycle then publishes an error state, in the one [setState]
    call that [loadEvents] makes after the reset. *)
Theorem related_event_failure_propagates (env : Env) (options : Options) (state : State)
    (rows : list EventData) (row : EventData) :
  body (requestEventsV2 env (eventsV2Url options) (replayEventsQuery env options)) = Ok rows →
  row ∈ rows →
  is_err (body (requestEvent env (relatedEventUrl env options row))) = true →
  is_err (outcome (fetchReplayEvents env options)) = true
  ∧ issued (fetchReplayEvents env options)
    = eventsV2Url options :: map (relatedEventUrl env options) rows
  ∧ ∃ error,
      published env options state = errorState error
      ∧ ∃ instant,
          setState (loadEvents env options state)
          = [(0, initialState); (instant, errorState error)].
Proof.
  intros Hrows Hin Hfail.
  assert (Hbranch : is_err (outcome (fetchReplayEvents env options)) = true).
  { rewrite (outcome_fetchReplayEvents env options rows Hrows).
    apply (Promise_all_Err _ (requestPromise (relatedEventUrl env options row)
                                (requestEvent env (relatedEventUrl env options row)))).
    - apply list_elem_of_In.
      apply (in_map (λ row, requestPromise (relatedEventUrl env options row)
                              (requestEvent env (relatedEventUrl env options row)))).
      by apply list_elem_of_In.
    - done. }
  split; [done|]. split; [by apply issued_fetchReplayEvents|].
  destruct (Promise_all3_Err (fetchEvent env options) (fetchRRWebEvents env options)
              (fetchReplayEvents env options)) as (t & e & _ & Hout & Ht).
  { rewrite Hbranch. by rewrite !orb_true_r. }
  destruct (published_after_rejection env options state t e Hout Ht) as [Hpublished Hat].
  exists e. split; [done|]. exists t.
  unfold loadEvents. cbn [setState]. by rewrite Hat, Hpublished.
Qed.

Lemma related_event_failure_propagates_witness :
  is_err (outcome (fetchReplayEvents Sample.missingRelated Sample.options)) = true
  ∧ issued (fetchReplayEvents Sample.missingRelated Sample.options)
    = eventsV2Url Sample.options
        :: map (relatedEventUrl Sample.missingRelated Sample.options)
             [mkRow "a" "web"; mkRow "z" "web"]
  ∧ ∃ error,
      published Sample.missingRelated Sample.options initialState = errorState error
      ∧ ∃ instant,
          setState (loadEvents Sample.missingRelated Sample.options initialState)
          = [(0, initialState); (instant, errorState error)].
Proof.
  apply (related_event_failure_propagates Sample.missingRelated Sample.options initialState
           [mkRow "a" "web"; mkRow "z" "web"] (mkRow "z" "web"));
    first [reflexivity | by right; left].
Defined.

(** X8. When the index cannot be queried, the related-event fetch
    rejects with the error of the query and requests no event. *)
Theorem index_failure (env : Env) (options : Options) (cause : Error) :
  body (requestEventsV2 env (eventsV2Url options) (replayEventsQuery env options)) = Err cause →
  issued (fetchReplayEvents env options) = [eventsV2Url options]
  ∧ outcome (fetchReplayEvents env options) = Err cause.
Proof.
  intros Hindex. unfold fetchReplayEvents, replayEventsQuery, mbind, Promise_bind in *.
  simpl. by rewrite Hindex.
Qed.

Lemma index_failure_witness :
  issued (fetchReplayEvents Sample.noIndex Sample.options) = [eventsV2Url Sample.options]
  ∧ outcome (fetchReplayEvents Sample.noIndex Sample.options) = Err (RequestError "503").
Proof.
  apply (index_failure Sample.noIndex Sample.options (RequestError "503")). reflexivity.
Defined.

(** ** The load cycle as a whole *)

Lemma outcome_tryBlock (env : Env) (options : Options) (state : State) :
  outcome (tryBlock env options state)
  = outcome (Promise_all3 (fetchEvent env options) (fetchRRWebEvents env options)
               (fetchReplayEvents env options))
      ≫= (λ '(rootEvent, timeline, related),
            crumbs ← mergeBreadcrumbsEntries env related;
            merged ← mergeReplayEvents related;
            Ok (mkState (Some crumbs) (Some rootEvent) None false
                  (Some merged) (Some related) (Some timeline))).
Proof.
  unfold tryBlock. rewrite outcome_bind.
  destruct (outcome (Promise_all3 _ _ _)) as [[[rootEvent timeline] related]|e]; [|done].
  simpl. rewrite outcome_bind. simpl.
  destruct (mergeBreadcrumbsEntries env related); simpl; [|done].
  rewrite outcome_bind. simpl. by destruct (mergeReplayEvents related).
Qed.

Lemma issued_tryBlock (env : Env) (options : Options) (state : State) :
  issued (tryBlock env options state)
  = issued (fetchEvent env options) ++ issued (fetchRRWebEvents env options)
      ++ issued (fetchReplayEvents env options).
Proof.
  unfold tryBlock. rewrite <- issued_Promise_all3.
  unfold mbind at 1, Promise_bind.
  destruct (outcome (Promise_all3 _ _ _)) as [[[rootEvent timeline] related]|e]; [|done].
  cbn [issued]. rewrite <- (app_nil_r (issued (Promise_all3 _ _ _))) at 2. f_equal.
  unfold mbind, Promise_bind, settled. cbn [outcome issued].
  destruct (mergeBreadcrumbsEntries env related); cbn [outcome issued]; [|done].
  by destruct (mergeReplayEvents related).
Qed.

(** X9. A load cycle sends the requests of its three branches whatever
    becomes of the others, each as often as listed, and none besides:
    when the attachment list and the index answer, these are the
    request for the root event, which is sent first, the list request
    followed by one download per selected attachment, and the query
    followed by one request per row, even if some of them are rejected.
    Nothing is said of the order between requests of different
    branches. *)
Theorem cycle_requests (env : Env) (options : Options) (state : State)
    (attachmentIds : list IssueAttachment) (rows : list EventData) :
  body (requestAttachments env (attachmentsUrl options)) = Ok attachmentIds →
  body (requestEventsV2 env (eventsV2Url options) (replayEventsQuery env options)) = Ok rows →
  let requests := sent (loadEvents env options state) in
  let collector :=
    attachmentsUrl options
      :: map (downloadUrl options) (List.filter isRRWebEventAttachment attachmentIds) in
  let related := eventsV2Url options :: map (relatedEventUrl env options) rows in
  requests ≡ₚ eventUrl options (eventSlug options) :: collector ++ related
  ∧ head requests = Some (eventUrl options (eventSlug options))
  ∧ sublist collector requests
  ∧ sublist related requests.
Proof.
  intros Hlist Hrows requests collector related.
  assert (Hsent : requests = eventUrl options (eventSlug options) :: collector ++ related).
  { unfold requests, loadEvents. cbn [sent]. rewrite issued_tryBlock.
    rewrite (fetchRRWebEvents_downloads env options attachmentIds Hlist).
    by rewrite (issued_fetchReplayEvents env options rows Hrows). }
  rewrite Hsent. split; [done|]. split; [done|]. split.
  - apply sublist_cons. by apply sublist_inserts_r.
  - apply sublist_cons. by apply sublist_inserts_l.
Qed.

Lemma cycle_requests_witness :
  let requests := sent (loadEvents Sample.missingRelated Sample.options initialState) in
  let collector :=
    attachmentsUrl Sample.options
      :: map (downloadUrl Sample.options)
           (List.filter isRRWebEventAttachment Sample.attachments) in
  let related :=
    eventsV2Url Sample.options
      :: map (relatedEventUrl Sample.missingRelated Sample.options)
           [mkRow "a" "web"; mkRow "z" "web"] in
  requests ≡ₚ eventUrl Sample.options (eventSlug Sample.options) :: collector ++ related
  ∧ head requests = Some (eventUrl Sample.options (eventSlug Sample.options))
  ∧ sublist collector requests
  ∧ sublist related requests.
Proof.
  apply (cycle_requests Sample.missingRelated Sample.options initialState
           Sample.attachments [mkRow "a" "web"; mkRow "z" "web"]);
    reflexivity.
Defined.

(** X10. When the three branches fulfil and both merges succeed, the
    cycle publishes [fetching = false], no [fetchError], the root event,
    the timeline and the related events as they were fetched, the
    breadcrumb entry of [mergeBreadcrumbsEntries] and the merged replay
    event, in the one [setState] call that [loadEvents] makes after the
    reset. *)
Theorem cycle_success_snapshot (env : Env) (options : Options) (state : State)
    (rootEvent : Event) (timeline : list eventWithTime) (related : list Event)
    (crumbs : Entry) (merged : Event) :
  outcome (fetchEvent env options) = Ok rootEvent →
  outcome (fetchRRWebEvents env options) = Ok timeline →
  outcome (fetchReplayEvents env options) = Ok related →
  mergeBreadcrumbsEntries env related = Ok crumbs →
  mergeReplayEvents related = Ok merged →
  published env options state
  = mkState (Some crumbs) (Some rootEvent) None false (Some merged) (Some related)
      (Some timeline)
  ∧ ∃ instant,
      setState (loadEvents env options state)
      = [(0, initialState);
         (instant, mkState (Some crumbs) (Some rootEvent) None false (Some merged)
                     (Some related) (Some timeline))].
Proof.
  intros H1 H2 H3 Hcrumbs Hmerged.
  assert (Hpublished : published env options state
                       = mkState (Some crumbs) (Some rootEvent) None false (Some merged)
                           (Some related) (Some timeline)).
  { unfold published.
    rewrite outcome_tryBlock, (Promise_all3_Ok _ _ _ _ _ _ H1 H2 H3). simpl.
    by rewrite Hcrumbs, Hmerged. }
  split; [done|]. exists (settledAt (tryBlock env options state)).
  unfold loadEvents. cbn [setState]. by rewrite Hpublished.
Qed.

Lemma cycle_success_snapshot_witness :
  published Sample.healthy Sample.options initialState
  = mkState (Some (mkEntry BREADCRUMBS [])) (Some Sample.root) None false
      (Some (mergedReplayEventOf [Sample.A; Sample.B] [Sample.s1; Sample.s2; Sample.s3]))
      (Some [Sample.A; Sample.B]) (Some [mkRRWeb 1670000000001 "snapshot"])
  ∧ ∃ instant,
      setState (loadEvents Sample.healthy Sample.options initialState)
      = [(0, initialState);
         (instant,
          mkState (Some (mkEntry BREADCRUMBS [])) (Some Sample.root) None false
            (Some (mergedReplayEventOf [Sample.A; Sample.B]
                     [Sample.s1; Sample.s2; Sample.s3]))
            (Some [Sample.A; Sample.B]) (Some [mkRRWeb 1670000000001 "snapshot"]))].
Proof.
  apply (cycle_success_snapshot Sample.healthy Sample.options initialState); reflexivity.
Defined.

(** X11. An exception thrown by [mergeBreadcrumbsEntries] is caught like
    a fetch failure: although the three branches fulfilled, the cycle
    publishes that exception as [fetchError] and no data, in the one
    [setState] call that [loadEvents] makes after the reset. *)
Theorem breadcrumb_fault_is_caught (env : Env) (options : Options) (state : State)
    (rootEvent : Event) (timeline : list eventWithTime) (related : list Event)
    (fault : Error) :
  outcome (fetchEvent env options) = Ok rootEvent →
  outcome (fetchRRWebEvents env options) = Ok timeline →
  outcome (fetchReplayEvents env options) = Ok related →
  mergeBreadcrumbsEntries env related = Err fault →
  published env options state = errorState fault
  ∧ ∃ instant,
      setState (loadEvents env options state)
      = [(0, initialState); (instant, errorState fault)].
Proof.
  intros H1 H2 H3 Hcrumbs.
  assert (Hpublished : published env options state = errorState fault).
  { unfold published.
    rewrite outcome_tryBlock, (Promise_all3_Ok _ _ _ _ _ _ H1 H2 H3). simpl.
    by rewrite Hcrumbs. }
  split; [done|]. exists (settledAt (tryBlock env options state)).
  unfold loadEvents. cbn [setState]. by rewrite Hpublished.
Qed.

Lemma breadcrumb_fault_is_caught_witness :
  published Sample.crumbFault Sample.options initialState
  = errorState (TypeError "Cannot read properties of undefined (reading 'values')")
  ∧ ∃ instant,
      setState (loadEvents Sample.crumbFault Sample.options initialState)
      = [(0, initialState);
         (instant,
          errorState (TypeError "Cannot read properties of undefined (reading 'values')"))].
Proof.
  apply (breadcrumb_fault_is_caught Sample.crumbFault Sample.options initialState
           Sample.root [mkRRWeb 1670000000001 "snapshot"] [Sample.A; Sample.B]);
    reflexivity.
Defined.

(** X12. Whatever the server answers, [loadEvents] calls [setState]
    twice, with the reset state and then with a state that has
    [fetching = false] and is all or nothing: either [fetchError] is set
    and every data field is [undefined], or [fetchError] is [undefined]
    and every data field is set. *)
Theorem published_all_or_nothing (env : Env) (options : Options) (state : State) :
  let snapshot := published env options state in
  fetching snapshot = false
  ∧ ((∃ error, snapshot = errorState error)
     ∨ (fetchError snapshot = None
        ∧ is_Some (event snapshot)
        ∧ is_Some (rrwebEvents snapshot)
        ∧ is_Some (replayEvents snapshot)
        ∧ is_Some (breadcrumbEntry snapshot)
        ∧ is_Some (mergedReplayEvent snapshot)))
  ∧ ∃ instant,
      setState (loadEvents env options state) = [(0, initialState); (instant, snapshot)].
Proof.
  intros snapshot.
  assert (Hcalls : ∃ instant,
             setState (loadEvents env options state)
             = [(0, initialState); (instant, snapshot)]).
  { by exists (settledAt (tryBlock env options state)). }
  revert Hcalls. generalize (setState (loadEvents env options state)). intros calls Hcalls.
  unfold snapshot in *. clear snapshot. revert Hcalls.
  unfold published. rewrite outcome_tryBlock.
  destruct (outcome (Promise_all3 _ _ _)) as [[[rootEvent timeline] related]|e]; simpl.
  - destruct (mergeBreadcrumbsEntries env related) as [crumbs|e]; simpl.
    + destruct (mergeReplayEvents related) as [merged|e]; simpl.
      * intros Hcalls. split; [done|]. split; [|done]. right. by repeat split.
      * intros Hcalls. split; [done|]. split; [|done]. left. by exists e.
    + intros Hcalls. split; [done|]. split; [|done]. left. by exists e.
  - intros Hcalls. split; [done|]. split; [|done]. left. by exists e.
Qed.

(** ** The state of the hook over time *)

(** X13. With a single cycle, started at [start], the hook returns
    [fetching = true] and no data until the cycle settles, and what the
    cycle published from then on: no intermediate state is ever
    returned. *)
Theorem hook_single_cycle (env : Env) (options : Options) (start now : nat) :
  useReplayEvent env [(start, options)] now
  = if start + settledAt (tryBlock env options initialState) <=? now
    then published env options initialState
    else initialState.
Proof.
  unfold useReplayEvent. cbn [runEffects].
  destruct (decide (None = Some (deps options))) as [Heq|_]; [done|].
  unfold stateAt, loadEvents, delay. cbn [setState map app fold_left fst snd].
  destruct (Nat.leb_spec (start + settledAt (tryBlock env options initialState)) now).
  - by decide_instants.
  - destruct (Nat.le_gt_cases start now); by decide_instants.
Qed.

Lemma runEffects_same_deps (env : Env) (current : string * string)
    (calls : list (nat * State)) (renders : list (nat * Options)) :
  Forall (λ render, deps render.2 = current) renders →
  runEffects env (Some current) calls renders = calls.
Proof.
  induction 1 as [|[start options] renders Hdeps _ IH]; [done|].
  cbn [runEffects]. simpl in Hdeps.
  destruct (decide (Some current = Some (deps options))) as [_|Hne]; [done|].
  by rewrite Hdeps in Hne.
Qed.

(** X14. Renders that leave [orgId] and [eventSlug] unchanged start no
    new cycle, even when [location] changes: the hook returns what it
    would return without them. *)
Theorem rerender_does_not_refetch (env : Env) (start : nat) (options : Options)
    (renders : list (nat * Options)) (now : nat) :
  Forall (λ render, orgId render.2 = orgId options
                    ∧ eventSlug render.2 = eventSlug options) renders →
  useReplayEvent env ((start, options) :: renders) now
  = useReplayEvent env [(start, options)] now.
Proof.
  intros Hsame. unfold useReplayEvent. cbn [runEffects].
  destruct (decide (None = Some (deps options))) as [Heq|_]; [done|].
  rewrite runEffects_same_deps; [done|].
  eapply Forall_impl; [exact Hsame|].
  intros [t o] [Horg Hslug]. unfold deps. simpl in *. by rewrite Horg, Hslug.
Qed.

Lemma rerender_does_not_refetch_witness :
  useReplayEvent Sample.healthy
    ((0, Sample.options) :: [(1, Sample.sameReplayElsewhere); (7, Sample.options)]) 9
  = useReplayEvent Sample.healthy [(0, Sample.options)] 9.
Proof.
  apply (rerender_does_not_refetch Sample.healthy 0 Sample.options
           [(1, Sample.sameReplayElsewhere); (7, Sample.options)] 9).
  by repeat constructor.
Defined.

(** X15. After [orgId] or [eventSlug] has changed and the effect of
    that render has run, and for as long as no cycle settles, the hook
    returns [fetching = true] with every data field and [fetchError]
    cleared, whatever the previous cycle had published. (The render
    that passes the new options itself still returns the previous
    state.) *)
Theorem restart_resets_state (env : Env) (prior next : Options) (start restart now : nat) :
  deps prior ≠ deps next →
  start < restart →
  restart < now →
  now < restart + settledAt (tryBlock env next initialState) →
  start + settledAt (tryBlock env prior initialState) < restart
  ∨ now < start + settledAt (tryBlock env prior initialState) →
  useReplayEvent env [(start, prior); (restart, next)] now = initialState.
Proof.
  intros Hdeps H1 H2 H3 H4. unfold useReplayEvent. cbn [runEffects].
  destruct (decide (None = Some (deps prior))) as [Heq|_]; [done|].
  destruct (decide (Some (deps prior) = Some (deps next))) as [Heq|_].
  { inversion Heq. congruence. }
  unfold stateAt, loadEvents, delay. cbn [setState map app fold_left fst snd].
  change (settledAt (tryBlock env next _)) with (settledAt (tryBlock env next initialState)).
  change (settledAt (tryBlock env prior _)) with (settledAt (tryBlock env prior initialState)).
  destruct H4 as [H4|H4]; by decide_instants.
Qed.

Lemma restart_resets_state_witness :
  useReplayEvent Sample.healthy [(0, Sample.options); (20, Sample.nextOptions)] 21
  = initialState.
Proof.
  apply (restart_resets_state Sample.healthy Sample.options Sample.nextOptions 0 20 21).
  - vm_compute. intros H. inversion H.
  - lia.
  - lia.
  - vm_compute. lia.
  - left. vm_compute. lia.
Defined.



(** ** The identifiers read from the slug *)

Lemma split_pieces_without_separator (sep : ascii) (s : string) :
  Forall (λ piece, contains sep piece = false) (split sep s).
Proof.
  induction s as [|c s IH]; simpl; [by repeat constructor|].
  destruct (decide (c = sep)) as [->|Hne]; [by constructor|].
  assert (Hc : bool_decide (sep = c) = false) by (apply bool_decide_eq_false_2; congruence).
  destruct (split sep s) as [|piece pieces].
  - constructor; [|constructor]. simpl. by rewrite Hc.
  - inversion IH as [|? ? Hpiece Hpieces]; subst. constructor; [|done].
    simpl. by rewrite Hpiece, Hc.
Qed.

Lemma split_nonempty (sep : ascii) (s : string) : split sep s ≠ [].
Proof.
  destruct s as [|c s]; simpl; [done|].
  destruct (decide (c = sep)); [done|]. by destruct (split sep s).
Qed.

(** X17. From a slug without a colon the hook reads the whole slug as
    [projectId] and [undefined] as [eventId], and asks for the attachment
    list of the event named "undefined". *)
Theorem slug_without_colon (slug place organisation : string) :
  contains ":" slug = false →
  let options := mkOptions slug place organisation in
  projectId options = Some slug
  ∧ eventId options = None
  ∧ attachmentsUrl options
    = "/projects/" +:+ organisation +:+ "/" +:+ slug +:+ "/events/undefined/attachments/".
Proof.
  intros Hslug options.
  assert (Hparse : parseSlug slug = (Some slug, None)).
  { unfold parseSlug. by rewrite (split_without_separator ":" slug Hslug). }
  unfold attachmentsUrl, projectId, eventId. simpl eventSlug. by rewrite Hparse.
Qed.

Lemma slug_without_colon_witness :
  let options := mkOptions "abc" "?statsPeriod=14d" "acme" in
  projectId options = Some "abc"
  ∧ eventId options = None
  ∧ attachmentsUrl options
    = "/projects/" +:+ "acme" +:+ "/" +:+ "abc" +:+ "/events/undefined/attachments/".
Proof.
  apply (slug_without_colon "abc" "?statsPeriod=14d" "acme"). reflexivity.
Defined.

(** X18. Of a slug with more than one colon the hook keeps the first two
    pieces as [projectId] and [eventId] and drops the rest, while the
    root event is still requested under the whole slug. *)
Theorem slug_extra_pieces_dropped (env : Env) (p e rest place organisation : string) :
  contains ":" p = false →
  contains ":" e = false →
  let slug := p +:+ ":" +:+ e +:+ ":" +:+ rest in
  let options := mkOptions slug place organisation in
  projectId options = Some p
  ∧ eventId options = Some e
  ∧ issued (fetchEvent env options)
    = ["/organizations/" +:+ organisation +:+ "/events/" +:+ slug +:+ "/"].
Proof.
  intros Hp He slug options.
  assert (Hparse : ∃ pieces, split ":" slug = p :: e :: pieces).
  { exists (split ":" rest). unfold slug.
    change (p +:+ ":" +:+ e +:+ ":" +:+ rest) with (p +:+ String ":" (e +:+ String ":" rest)).
    by rewrite (split_at_separator ":" p _ Hp), (split_at_separator ":" e _ He). }
  destruct Hparse as [pieces Hpieces].
  unfold projectId, eventId, parseSlug. simpl eventSlug. rewrite Hpieces.
  by repeat split.
Qed.

Lemma slug_extra_pieces_dropped_witness :
  let slug := "123" +:+ ":" +:+ "abc" +:+ ":" +:+ "trailing:pieces" in
  let options := mkOptions slug "?statsPeriod=14d" "acme" in
  projectId options = Some "123"
  ∧ eventId options = Some "abc"
  ∧ issued (fetchEvent Sample.healthy options)
    = ["/organizations/" +:+ "acme" +:+ "/events/" +:+ slug +:+ "/"].
Proof.
  apply (slug_extra_pieces_dropped Sample.healthy "123" "abc" "trailing:pieces"
           "?statsPeriod=14d" "acme");
    reflexivity.
Defined.

(** X19. Whatever the slug, [projectId] is defined, and neither
    [projectId] nor [eventId] ever holds a colon. *)
Theorem parsed_identifiers_hold_no_colon (options : Options) :
  is_Some (projectId options)
  ∧ (∀ p, projectId options = Some p → contains ":" p = false)
  ∧ (∀ e, eventId options = Some e → contains ":" e = false).
Proof.
  unfold projectId, eventId, parseSlug. simpl.
  pose proof (split_pieces_without_separator ":" (eventSlug options)) as Hpieces.
  pose proof (split_nonempty ":" (eventSlug options)) as Hnonempty.
  destruct (split ":" (eventSlug options)) as [|p pieces]; [done|].
  inversion Hpieces as [|? ? Hp Hrest]; subst. split; [by eexists|]. split.
  - intros p' Hp'. simpl in Hp'. by inversion Hp'; subst.
  - intros e He. simpl in He. destruct pieces as [|e' pieces]; [done|].
    inversion Hrest; subst. by inversion He; subst.
Qed.

(** ** More on the merge step *)

Lemma spansOf_succeeds (e : Event) :
  is_err (spansOf e) = false
  ↔ ∃ entries, e !! "entries" = Some (VEntries entries)
               ∧ is_Some (List.find isReplayEventEntity entries).
Proof.
  unfold spansOf. split.
  - destruct (e !! "entries") as [[| | | |entries|]|]; try done.
    destruct (List.find isReplayEventEntity entries) eqn:Hfind; [|done].
    intros _. exists entries. split; [done|]. rewrite Hfind. by eexists.
  - intros (entries & -> & [entry ->]). done.
Qed.

(** X20. The merge step succeeds exactly when every related event has
    an [entries] list that holds an entry tagged as spans; otherwise it
    throws. *)
Theorem merge_succeeds_iff (related : list Event) :
  is_err (mergeReplayEvents related) = false
  ↔ Forall (λ e, ∃ entries, e !! "entries" = Some (VEntries entries)
                            ∧ is_Some (List.find isReplayEventEntity entries)) related.
Proof.
  unfold mergeReplayEvents.
  assert (Hflat : is_err (flatMap spansOf related) = false
                  ↔ Forall (λ e, is_err (spansOf e) = false) related).
  { induction related as [|e l IH]; simpl.
    - split; [constructor|done].
    - rewrite Forall_cons, <- IH.
      destruct (spansOf e); simpl; [|by split; [|intros []]].
      destruct (flatMap spansOf l); simpl; by split; [|intros []]. }
  transitivity (is_err (flatMap spansOf related) = false).
  - by destruct (flatMap spansOf related).
  - rewrite Hflat. apply Forall_proper; [|done]. intros e. apply spansOf_succeeds.
Qed.

(** X21. Merging is idempotent: the merge of the single event that a
    merge produced is that event. *)
Theorem merge_idempotent (related : list Event) (merged : Event) :
  mergeReplayEvents related = Ok merged →
  mergeReplayEvents [merged] = Ok merged.
Proof.
  unfold mergeReplayEvents. intros H.
  destruct (flatMap spansOf related) as [spans|e]; [|done].
  simpl in H. inversion H; subst merged. clear H.
  set (merged := mergedReplayEventOf related spans).
  assert (Hspans : spansOf merged = Ok spans).
  { unfold spansOf, merged. by rewrite mergedReplayEventOf_entries. }
  simpl. rewrite Hspans. simpl. rewrite app_nil_r. f_equal.
  apply map_eq. intros k.
  destruct (decide (k = "endTimestamp")) as [->|H1].
  { unfold merged. by rewrite !mergedReplayEventOf_endTimestamp. }
  destruct (decide (k = "entries")) as [->|H2].
  { unfold merged. by rewrite !mergedReplayEventOf_entries. }
  destruct (decide (k = "breakdowns")) as [->|H3].
  { unfold merged. by rewrite !mergedReplayEventOf_breakdowns. }
  by rewrite mergedReplayEventOf_other.
Qed.

Lemma merge_idempotent_witness :
  mergeReplayEvents [mergedReplayEventOf [Sample.A; Sample.B]
                       [Sample.s1; Sample.s2; Sample.s3]]
  = Ok (mergedReplayEventOf [Sample.A; Sample.B] [Sample.s1; Sample.s2; Sample.s3]).
Proof.
  apply (merge_idempotent [Sample.A; Sample.B]). reflexivity.
Defined.

(** X22. The merged replay event has the attributes of the first
    related event and, whether that event had them or not, [entries],
    [breakdowns] and [endTimestamp]; without a related event it has
    these three only. *)
Theorem merged_event_attributes (related : list Event) (merged : Event) :
  mergeReplayEvents related = Ok merged →
  dom merged
  = {["endTimestamp"]} ∪ ({["entries"]} ∪ ({["breakdowns"]}
      ∪ match related with
        | first :: _ => dom first
        | [] => ∅
        end)).
Proof.
  unfold mergeReplayEvents. intros H.
  destruct (flatMap spansOf related) as [spans|e]; [|done].
  simpl in H. inversion H; subst merged.
  unfold mergedReplayEventOf. rewrite !dom_insert_L.
  destruct related as [|first rest]; simpl; [|done].
  by rewrite dom_empty_L.
Qed.

Lemma merged_event_attributes_witness :
  dom (mergedReplayEventOf [Sample.B] [Sample.s3])
  = {["endTimestamp"]} ∪ ({["entries"]} ∪ ({["breakdowns"]} ∪ dom Sample.B)).
Proof.
  apply (merged_event_attributes [Sample.B]). reflexivity.
Defined.

(** X23. For any number of related events, each with a first spans
    entry, the merged replay event holds the concatenation of the data
    of these entries, in the order of the events, and its
    [endTimestamp] is the timestamp of the last span of the
    concatenation, whatever [endTimestamp] the events carried. *)
Theorem merge_concatenates (related : list Event) (sequences : list (list Span)) :
  Forall2 (λ e spans,
             ∃ entries entry,
               e !! "entries" = Some (VEntries entries)
               ∧ List.find isReplayEventEntity entries = Some entry
               ∧ data entry = spans) related sequences →
  ∃ merged,
    mergeReplayEvents related = Ok merged
    ∧ merged !! "entries" = Some (VEntries [mkEntry SPANS (concat sequences)])
    ∧ merged !! "endTimestamp" = Some (optional_timestamp (last (concat sequences))).
Proof.
  intros Hall.
  assert (Hflat : flatMap spansOf related = Ok (concat sequences)).
  { induction Hall as [|e spans l ds (entries & entry & He & Hfind & Hdata) _ IH]; [done|].
    assert (Hspans : spansOf e = Ok spans).
    { unfold spansOf. by rewrite He, Hfind, Hdata. }
    cbn [flatMap]. by rewrite Hspans, IH. }
  exists (mergedReplayEventOf related (concat sequences)). split; [|split].
  - unfold mergeReplayEvents. by rewrite Hflat.
  - apply mergedReplayEventOf_entries.
  - apply mergedReplayEventOf_endTimestamp.
Qed.

Lemma merge_concatenates_witness :
  ∃ merged,
    mergeReplayEvents [Sample.B; Sample.A; Sample.B] = Ok merged
    ∧ merged !! "entries"
      = Some (VEntries [mkEntry SPANS (concat [[Sample.s3]; [Sample.s1; Sample.s2]; [Sample.s3]])])
    ∧ merged !! "endTimestamp"
      = Some (optional_timestamp
                (last (concat [[Sample.s3]; [Sample.s1; Sample.s2]; [Sample.s3]]))).
Proof.
  apply (merge_concatenates [Sample.B; Sample.A; Sample.B]
           [[Sample.s3]; [Sample.s1; Sample.s2]; [Sample.s3]]).
  repeat constructor.
  - exists [mkEntry SPANS [Sample.s3]], (mkEntry SPANS [Sample.s3]). by repeat split.
  - exists [mkEntry BREADCRUMBS []; mkEntry SPANS [Sample.s1; Sample.s2];
            mkEntry SPANS [Sample.s4]], (mkEntry SPANS [Sample.s1; Sample.s2]).
    by repeat split.
  - exists [mkEntry SPANS [Sample.s3]], (mkEntry SPANS [Sample.s3]). by repeat split.
Defined.
